(** * The in-memory rate limiter of go-crud-app (package middleware)

    A shallow embedding of [RateLimiter], [NewRateLimiter], one pass of the
    [cleanup] loop, [Allow] and [RateLimitMiddleware], followed by the
    properties the specification states about them.

    Conventions.
    - A [time.Time] instant is an integer number of nanoseconds on the
      (monotonic) clock; a [time.Duration] is a signed 64-bit number of
      nanoseconds.  [Time.Sub] saturates the way Go's [Time.Sub] does.
    - [time.Now()] is an input: every operation receives the instant it reads.
    - [map[string][]time.Time] is a [gmap string (list Z)].
    - [sync.Mutex] appears in the interleaving semantics of module
      [Concurrent]; the sequential functions describe what one call does
      between [Lock] and [Unlock]. *)

From Stdlib Require Import ZArith Lia.
From stdpp Require Import gmap strings list fin_maps sorting.

Local Open Scope Z_scope.

(** ** Package time: instants, durations, [Sub] *)

Module Time.

Definition minDuration : Z := - 2 ^ 63.
Definition maxDuration : Z := 2 ^ 63 - 1.

Definition Nanosecond : Z := 1.
Definition Second : Z := 1000000000 * Nanosecond.
Definition Minute : Z := 60 * Second.

(** [t.Sub(u)]: the duration [t - u], clamped to the range of int64. *)
Definition Sub (t u : Z) : Z :=
  if t - u <? minDuration then minDuration
  else if maxDuration <? t - u then maxDuration
  else t - u.

End Time.

(** ** The limiter

    The fields of the struct but for [mu], which is part of
    [Concurrent.config]. *)

Record RateLimiter : Type := mkRateLimiter {
  requests : gmap string (list Z);
  limit : Z;
  window : Z
}.

Definition set_requests (m : gmap string (list Z)) (rl : RateLimiter) : RateLimiter :=
  {| requests := m; limit := limit rl; window := window rl |}.

(** [NewRateLimiter]: an empty map and the two constants.  The goroutine it
    starts is [cleanup], whose passes are events of their own below. *)
Definition NewRateLimiter (lim : Z) (win : Z) : RateLimiter :=
  {| requests := ∅; limit := lim; window := win |}.

(** The filtering loop that [cleanup] and [Allow] both contain:
    [validTimes := []; for t in times { if now.Sub(t) < window { append } }]. *)
Definition validTimes (now win : Z) (times : list Z) : list Z :=
  fold_left (fun acc t => if Time.Sub now t <? win then acc ++ [t] else acc) times [].

(** The body of the loop over the map in [cleanup], for one key. *)
Definition cleanup_key (now win : Z) (key : string) (times : list Z)
    (reqs : gmap string (list Z)) : gmap string (list Z) :=
  let valid := validTimes now win times in
  if (length valid =? 0)%nat then delete key reqs else <[key := valid]> reqs.

(** One tick of [cleanup]: the range loop visits every entry of the map once
    and deletes or overwrites that entry in the map it ranges over. *)
Definition cleanup (now : Z) (rl : RateLimiter) : RateLimiter :=
  set_requests
    (map_fold (cleanup_key now (window rl)) (requests rl) (requests rl)) rl.

(** [Allow], with the instant read by [time.Now()] as an argument; the result
    is the returned boolean and the limiter after the call. *)
Definition Allow (key : string) (now : Z) (rl : RateLimiter) : bool * RateLimiter :=
  match requests rl !! key with
  | None => (true, set_requests (<[key := [now]]> (requests rl)) rl)
  | Some times =>
      let valid := validTimes now (window rl) times in
      if Z.of_nat (length valid) >=? limit rl then (false, rl)
      else (true, set_requests (<[key := valid ++ [now]]> (requests rl)) rl)
  end.

(** ** Executions *)

Inductive event : Type :=
  | EvAllow (key : string) (now : Z)
  | EvCleanup (now : Z).

Definition event_time (e : event) : Z :=
  match e with EvAllow _ t => t | EvCleanup t => t end.

Definition step (rl : RateLimiter) (e : event) : RateLimiter :=
  match e with
  | EvAllow key now => (Allow key now rl).2
  | EvCleanup now => cleanup now rl
  end.

Fixpoint run (evs : list event) (rl : RateLimiter) : RateLimiter :=
  match evs with
  | [] => rl
  | e :: evs' => run evs' (step rl e)
  end.

(** The answers of the [Allow] calls of an execution, in order. *)
Fixpoint outcomes (evs : list event) (rl : RateLimiter) : list bool :=
  match evs with
  | [] => []
  | EvAllow key now :: evs' => (Allow key now rl).1 :: outcomes evs' (Allow key now rl).2
  | EvCleanup now :: evs' => outcomes evs' (cleanup now rl)
  end.

(** The clock does not go backwards: every event happens at or after [t]
    and at or after the events before it. *)
Fixpoint monotone_from (t : Z) (evs : list event) : Prop :=
  match evs with
  | [] => True
  | e :: evs' => t <= event_time e /\ monotone_from (event_time e) evs'
  end.

Fixpoint last_time (t : Z) (evs : list event) : Z :=
  match evs with
  | [] => t
  | e :: evs' => last_time (event_time e) evs'
  end.

(** Successive calls of [Allow] for one key, at the given instants. *)
Fixpoint allows (key : string) (nows : list Z) (rl : RateLimiter)
    : list bool * RateLimiter :=
  match nows with
  | [] => ([], rl)
  | now :: nows' =>
      let r := Allow key now rl in
      let rs := allows key nows' r.2 in
      (r.1 :: rs.1, rs.2)
  end.

(** The sequence recorded for a key, empty when the key is absent. *)
Definition history (rl : RateLimiter) (key : string) : list Z :=
  default [] (requests rl !! key).

(** ** Entries and invariants *)

(** What one [cleanup] pass leaves of an entry. *)
Definition pruned_entry (now win : Z) (times : list Z) : option (list Z) :=
  match validTimes now win times with
  | [] => None
  | valid => Some valid
  end.

(** The decision and the new entry are functions of the old entry, the
    instant and the two constants alone. *)
Definition decide_entry (lim win now : Z) (e : option (list Z))
    : bool * option (list Z) :=
  match e with
  | None => (true, Some [now])
  | Some times =>
      let valid := validTimes now win times in
      if Z.of_nat (length valid) >=? lim then (false, Some times)
      else (true, Some (valid ++ [now]))
  end.

(** No entry is longer than the limit. *)
Definition bounded (rl : RateLimiter) : Prop :=
  forall k times, requests rl !! k = Some times ->
    Z.of_nat (length times) <= limit rl.

(** No entry holds an instant later than [t]. *)
Definition not_after (t : Z) (rl : RateLimiter) : Prop :=
  forall k times, requests rl !! k = Some times -> Forall (fun u => u <= t) times.

(** Two limiters that [Allow] cannot tell apart at instant [t] or later:
    same constants, and for every key the same instants still inside the
    window. *)
Definition same_view (t : Z) (rl1 rl2 : RateLimiter) : Prop :=
  limit rl1 = limit rl2 /\ window rl1 = window rl2
  /\ forall k, validTimes t (window rl1) (history rl1 k)
              = validTimes t (window rl2) (history rl2 k).

(** ** The HTTP boundary: what the middleware uses of gin *)

Module Gin.

(** [net/http]'s [StatusTooManyRequests]. *)
Definition StatusTooManyRequests : Z := 429.

(** [abortIndex = math.MaxInt8 >> 1]. *)
Definition abortIndex : Z := 63.

(** [gin.H], with the string values the middleware puts in it. *)
Abbreviation H := (gmap string string).

(** The part of [gin.Context] the middleware touches: the client address,
    the position in the handler chain, and what was written to the response
    (status code and JSON object, one pair for each call of [c.JSON]). *)
Record Context : Type := mkContext {
  ClientIP : string;
  index : Z;
  written : list (Z * H)
}.

Definition JSON (code : Z) (obj : H) (c : Context) : Context :=
  {| ClientIP := ClientIP c; index := index c; written := written c ++ [(code, obj)] |}.

Definition Abort (c : Context) : Context :=
  {| ClientIP := ClientIP c; index := abortIndex; written := written c |}.

Definition advance (c : Context) : Context :=
  {| ClientIP := ClientIP c; index := index c + 1; written := written c |}.

End Gin.

(** What a request sees while it is served: the limiter its route was given,
    its gin context, and the datastore the business handlers work on. *)
Record Server (Store : Type) : Type := mkServer {
  limiter : RateLimiter;
  ctx : Gin.Context;
  store : Store
}.

Arguments mkServer {Store} _ _ _.
Arguments limiter {Store} _.
Arguments ctx {Store} _.
Arguments store {Store} _.

Definition with_ctx {Store} (f : Gin.Context -> Gin.Context) (s : Server Store)
    : Server Store :=
  {| limiter := limiter s; ctx := f (ctx s); store := store s |}.

Definition with_limiter {Store} (rl : RateLimiter) (s : Server Store) : Server Store :=
  {| limiter := rl; ctx := ctx s; store := store s |}.

(** A [gin.HandlerFunc]; its first argument is what [c.Next()] does when the
    handler calls it. *)
Definition HandlerFunc (Store : Type) : Type :=
  (Server Store -> Server Store) -> Server Store -> Server Store.

(** The loop of gin's [Context.Next]:
    [for c.index < len(c.handlers) { c.handlers[c.index](c); c.index++ }],
    over the handlers from position [pos] on.  The handler at a position runs
    when the index stands there; a handler that called [c.Next()] or
    [c.Abort()] has moved the index past the handlers that follow it. *)
Fixpoint run_handlers {Store} (hs : list (HandlerFunc Store)) (pos : Z)
    (s : Server Store) : Server Store :=
  match hs with
  | [] => s
  | h :: rest =>
      if Gin.index (ctx s) =? pos then
        let s' := h (fun s1 => run_handlers rest (pos + 1) (with_ctx Gin.advance s1)) s in
        run_handlers rest (pos + 1) (with_ctx Gin.advance s')
      else run_handlers rest (pos + 1) s
  end.

(** [c.Next()] as the engine calls it on a context whose index is [-1]. *)
Definition Next {Store} (hs : list (HandlerFunc Store)) (s : Server Store)
    : Server Store :=
  run_handlers hs 0 (with_ctx Gin.advance s).

Definition rate_limit_message : string :=
  "Rate limit exceeded. Please try again later.".

(** [RateLimitMiddleware(limiter)]; [now] is the instant [Allow] reads. *)
Definition RateLimitMiddleware {Store} (now : Z) : HandlerFunc Store :=
  fun next s =>
    let key := Gin.ClientIP (ctx s) in
    let r := Allow key now (limiter s) in
    if negb r.1 then
      with_ctx Gin.Abort
        (with_ctx (Gin.JSON Gin.StatusTooManyRequests {[ "error" := rate_limit_message ]})
           (with_limiter r.2 s))
    else next (with_limiter r.2 s).

(** A business handler: it works on the server state and does not touch the
    chain. *)
Definition business {Store} (body : Server Store -> Server Store) : HandlerFunc Store :=
  fun _ s => body s.

(** A request from 1.2.3.4 that finds its quota used up: limit 1, one call
    already recorded.  The handler after the middleware would have written to
    the store. *)
Definition throttled_request : Server nat :=
  {| limiter := run [EvAllow "1.2.3.4" 0] (NewRateLimiter 1 Time.Minute);
     ctx := {| Gin.ClientIP := "1.2.3.4"; Gin.index := -1; Gin.written := [] |};
     store := 0%nat |}.

(** A request as the engine hands it to the chain: a fresh context for the
    client [ip], the limiter of the route and the store as they are. *)
Definition request {Store} (ip : string) (rl : RateLimiter) (st : Store) : Server Store :=
  {| limiter := rl;
     ctx := {| Gin.ClientIP := ip; Gin.index := -1; Gin.written := [] |};
     store := st |}.

(** Requests [(ip, now)] served one after the other by the chain
    [RateLimitMiddleware; handler]; the result lists what each request got
    written, and the limiter and the store at the end. *)
Fixpoint serve_all {Store} (handler : HandlerFunc Store) (reqs : list (string * Z))
    (rl : RateLimiter) (st : Store) : list (list (Z * Gin.H)) * (RateLimiter * Store) :=
  match reqs with
  | [] => ([], (rl, st))
  | (ip, now) :: reqs' =>
      let s := Next [RateLimitMiddleware now; handler] (request ip rl st) in
      let r := serve_all handler reqs' (limiter s) (store s) in
      (Gin.written (ctx s) :: r.1, r.2)
  end.

(** A stand-in for a registration that passes validation: one more user in
    the store, status 201. *)
Definition register_ok : HandlerFunc nat :=
  business (fun s =>
    {| limiter := limiter s;
       ctx := Gin.JSON 201 {[ "message" := "created" ]} (ctx s);
       store := S (store s) |}).

(** ** Goroutines calling [Allow] concurrently

    Each goroutine executes the body of [Allow] one statement at a time; the
    scheduler picks which goroutine moves next, and the clock may advance
    (never go back) between any two moves.  [rl.mu] is held from [Lock] to
    the deferred [Unlock]; a goroutine that finds it held does not move. *)

Module Concurrent.

(** Where a goroutine stands in [Allow], with its local variables. *)
Inductive pc : Type :=
  | PStart                                      (* before [rl.mu.Lock()] *)
  | PLocked                                     (* before [now := time.Now()] *)
  | PLookup (now : Z)                           (* before [rl.requests[key]] *)
  | PFilter (now : Z) (rest valid : list Z)     (* in the filter loop *)
  | PCheck (now : Z) (valid : list Z)           (* before the limit test *)
  | PStore (now : Z) (valid : list Z)           (* before append and store *)
  | PReturn (b : bool)                          (* before the deferred Unlock *)
  | PDone (b : bool).                           (* returned [b] *)

Record config : Type := mkConfig {
  shared : RateLimiter;
  mu : option nat;
  clock : Z;
  goroutines : list (string * pc)
}.

Inductive action : Type :=
  | Run (g : nat)
  | Tick (d : Z).

Definition move (g : nat) (key : string) (p : pc) (holder : option nat)
    (rl : RateLimiter) (c : config) : config :=
  {| shared := rl; mu := holder; clock := clock c;
     goroutines := <[g := (key, p)]> (goroutines c) |}.

(** One statement of goroutine [g], which runs [Allow key] and stands at [p]. *)
Definition step_goroutine (g : nat) (key : string) (p : pc) (c : config) : config :=
  let rl := shared c in
  match p with
  | PStart =>
      match mu c with
      | None => move g key PLocked (Some g) rl c
      | Some _ => c
      end
  | PLocked => move g key (PLookup (clock c)) (mu c) rl c
  | PLookup now =>
      match requests rl !! key with
      | None =>
          move g key (PReturn true) (mu c)
            (set_requests (<[key := [now]]> (requests rl)) rl) c
      | Some times => move g key (PFilter now times []) (mu c) rl c
      end
  | PFilter now (t :: rest) valid =>
      move g key
        (PFilter now rest (if Time.Sub now t <? window rl then valid ++ [t] else valid))
        (mu c) rl c
  | PFilter now [] valid => move g key (PCheck now valid) (mu c) rl c
  | PCheck now valid =>
      if Z.of_nat (length valid) >=? limit rl
      then move g key (PReturn false) (mu c) rl c
      else move g key (PStore now valid) (mu c) rl c
  | PStore now valid =>
      move g key (PReturn true) (mu c)
        (set_requests (<[key := valid ++ [now]]> (requests rl)) rl) c
  | PReturn b => move g key (PDone b) None rl c
  | PDone _ => c
  end.

Definition exec (a : action) (c : config) : config :=
  match a with
  | Run g =>
      match goroutines c !! g with
      | Some (key, p) => step_goroutine g key p c
      | None => c
      end
  | Tick d =>
      if 0 <=? d
      then {| shared := shared c; mu := mu c; clock := clock c + d;
              goroutines := goroutines c |}
      else c
  end.

Fixpoint execs (sched : list action) (c : config) : config :=
  match sched with
  | [] => c
  | a :: sched' => execs sched' (exec a c)
  end.

(** [n] goroutines about to call [Allow key] on the limiter [rl]. *)
Definition init (rl : RateLimiter) (t0 : Z) (key : string) (n : nat) : config :=
  {| shared := rl; mu := None; clock := t0;
     goroutines := replicate n (key, PStart) |}.

Definition returned (b : bool) (g : string * pc) : bool :=
  match g.2 with
  | PDone b' => Bool.eqb b b'
  | _ => false
  end.

Definition is_done (g : string * pc) : bool :=
  match g.2 with
  | PDone _ => true
  | _ => false
  end.

Definition all_done (c : config) : bool := forallb is_done (goroutines c).

(** How many goroutines have returned [b]. *)
Definition count_returned (b : bool) (c : config) : nat :=
  length (List.filter (returned b) (goroutines c)).

(** The call is recorded (or about to be answered [true]). *)
Definition admitted (g : string * pc) : bool :=
  match g.2 with
  | PReturn true | PDone true => true
  | _ => false
  end.

Definition denied (g : string * pc) : bool :=
  match g.2 with
  | PReturn false | PDone false => true
  | _ => false
  end.

(** Between [Lock] and [Unlock]. *)
Definition in_cs (p : pc) : bool :=
  match p with
  | PStart | PDone _ => false
  | _ => true
  end.

(** What the local variables of a goroutine inside [Allow] know about the
    shared map, for the key [k] and instants between [t0] and the clock. *)
Definition local_ok (k : string) (L t0 : Z) (c : config) (p : pc) : Prop :=
  match p with
  | PLookup now => t0 <= now <= clock c
  | PFilter now rest valid =>
      t0 <= now <= clock c /\ requests (shared c) !! k = Some (valid ++ rest)
  | PCheck now valid =>
      t0 <= now <= clock c /\ requests (shared c) !! k = Some valid
  | PStore now valid =>
      t0 <= now <= clock c /\ requests (shared c) !! k = Some valid
      /\ Z.of_nat (length valid) < L
  | _ => True
  end.

(** The invariant of [n] goroutines that call [Allow k] while the clock stays
    in [[t0, t0 + W)]. *)
Record Inv (k : string) (L W t0 : Z) (c : config) : Prop := mkInv {
  inv_limit : limit (shared c) = L;
  inv_window : window (shared c) = W;
  inv_clock : t0 <= clock c < t0 + W;
  inv_keys : forall g key p, goroutines c !! g = Some (key, p) -> key = k;
  inv_mutex : forall g key p,
    goroutines c !! g = Some (key, p) -> in_cs p = true -> mu c = Some g;
  inv_holder : forall g, mu c = Some g ->
    exists key p, goroutines c !! g = Some (key, p) /\ in_cs p = true;
  inv_hist : Forall (fun t => t0 <= t <= clock c) (history (shared c) k);
  inv_count : length (history (shared c) k)
              = length (List.filter admitted (goroutines c));
  inv_bound : Z.of_nat (length (history (shared c) k)) <= L;
  inv_denied : (0 < length (List.filter denied (goroutines c)))%nat ->
               Z.of_nat (length (history (shared c) k)) = L;
  inv_local : forall g key p,
    goroutines c !! g = Some (key, p) -> local_ok k L t0 c p
}.

(** Statements a goroutine at [p] still has to execute, when the entry it
    filters has at most [L] instants. *)
Definition remaining (L : nat) (p : pc) : nat :=
  match p with
  | PStart => L + 7
  | PLocked => L + 6
  | PLookup _ => L + 5
  | PFilter _ rest _ => length rest + 4
  | PCheck _ _ => 3
  | PStore _ _ => 2
  | PReturn _ => 1
  | PDone _ => 0
  end.

Definition total_remaining (L : nat) (c : config) : nat :=
  sum_list_with (fun g : string * pc => remaining L g.2) (goroutines c).

(** The limit test of [Allow] and what follows it. *)
Definition check_and_store (key : string) (now : Z) (valid : list Z) (rl : RateLimiter)
    : bool * RateLimiter :=
  if Z.of_nat (length valid) >=? limit rl then (false, rl)
  else (true, set_requests (<[key := valid ++ [now]]> (requests rl)) rl).

(** Goroutine [g] alone executes [n] statements. *)
Fixpoint solo (g : nat) (n : nat) (c : config) : config :=
  match n with
  | O => c
  | S n' => solo g n' (exec (Run g) c)
  end.

End Concurrent.

(** ** The log of admitted calls *)

(** The instants at which a call [Allow key] was admitted during an
    execution, in the order of the calls. *)
Fixpoint admitted_at (key : string) (evs : list event) (rl : RateLimiter) : list Z :=
  match evs with
  | [] => []
  | EvAllow k now :: evs' =>
      (if decide (k = key) then (if (Allow k now rl).1 then [now] else []) else [])
      ++ admitted_at key evs' (Allow k now rl).2
  | EvCleanup now :: evs' => admitted_at key evs' (cleanup now rl)
  end.

(** [t] lies in the span of length [len] that starts at [s]. *)
Definition in_span (s len t : Z) : bool := (s <=? t) && (t <? s + len).

(** The instants of [log] that are less than [win] old at [now]. *)
Definition recent (now win : Z) (log : list Z) : list Z :=
  List.filter (fun t => now - t <? win) log.

(** What the map knows of the log of a key: the instants still inside the
    window are the same in both. *)
Definition tracks (k : string) (t : Z) (rl : RateLimiter) (log : list Z) : Prop :=
  recent t (window rl) (history rl k) = recent t (window rl) log
  /\ Forall (fun u => u <= t) log.

(** The entry of a key is what is left of its log after the oldest instants
    were dropped; the log is in the order of the clock and ends by [t]; the
    entry, when there is one, is not empty. *)
Definition recorded (k : string) (t : Z) (rl : RateLimiter) (log : list Z) : Prop :=
  history rl k `suffix_of` log
  /\ StronglySorted Z.le log
  /\ Forall (fun u => u <= t) log
  /\ requests rl !! k <> Some [].

(** No span shorter than the window holds more than [limit] instants of
    the log. *)
Definition sparse (L W : Z) (log : list Z) : Prop :=
  forall s, Z.of_nat (length (List.filter (in_span s W) log)) <= L.


(** ** Concurrent calls for any keys, and their sequential order *)

Module Linear.
Import Concurrent.

(** One goroutine for each key of [keys], about to call [Allow] with it. *)
Definition init_keys (rl : RateLimiter) (t0 : Z) (keys : list string) : config :=
  {| shared := rl; mu := None; clock := t0;
     goroutines := (fun key => (key, PStart)) <$> keys |}.

(** An order of calls: which goroutine, and the instant its call read. *)
Definition calls (keys : list string) (order : list (nat * Z)) : list event :=
  (fun gn : nat * Z => EvAllow (default EmptyString (keys !! gn.1)) gn.2) <$> order.

(** The answer a goroutine has settled on, once it has passed the limit
    test or taken the fast path. *)
Definition settled (p : pc) : option bool :=
  match p with
  | PReturn b | PDone b => Some b
  | _ => None
  end.

Definition effect (c : config) (gn : nat * Z) : option bool :=
  goroutines c !! gn.1 ≫= fun kp => settled kp.2.

(** The answers the goroutines have returned, in the given order. *)
Definition answers (c : config) (order : list (nat * Z)) : list (option bool) :=
  (fun gn : nat * Z =>
     goroutines c !! gn.1 ≫= fun kp =>
       match kp.2 with PDone b => Some b | _ => None end) <$> order.

(** What the local variables of a goroutine inside [Allow] hold, given the
    calls that have taken effect so far. *)
Definition local_lin (t0 : Z) (evs : list event) (c : config) (key : string) (p : pc)
    : Prop :=
  match p with
  | PLookup now => last_time t0 evs <= now <= clock c
  | PFilter now rest valid =>
      last_time t0 evs <= now <= clock c
      /\ exists times, requests (shared c) !! key = Some times
           /\ fold_left (fun acc t => if Time.Sub now t <? window (shared c)
                                      then acc ++ [t] else acc) rest valid
              = validTimes now (window (shared c)) times
  | PCheck now valid =>
      last_time t0 evs <= now <= clock c
      /\ exists times, requests (shared c) !! key = Some times
           /\ valid = validTimes now (window (shared c)) times
  | PStore now valid =>
      last_time t0 evs <= now <= clock c
      /\ (exists times, requests (shared c) !! key = Some times
           /\ valid = validTimes now (window (shared c)) times)
      /\ (Z.of_nat (length valid) >=? limit (shared c)) = false
  | _ => True
  end.

(** The calls of [order] are the ones that have taken effect, the shared
    limiter is what they leave when made one after the other, and each has the
    answer the sequential call gives. *)
Record Lin (keys : list string) (rl0 : RateLimiter) (t0 : Z) (c : config)
    (order : list (nat * Z)) : Prop := mkLin {
  lin_keys : forall g key p, goroutines c !! g = Some (key, p) -> keys !! g = Some key;
  lin_mutex : forall g key p,
    goroutines c !! g = Some (key, p) -> in_cs p = true -> mu c = Some g;
  lin_nodup : NoDup order.*1;
  lin_members : forall g, g ∈ order.*1 <->
    exists key p, goroutines c !! g = Some (key, p) /\ is_Some (settled p);
  lin_mono : monotone_from t0 (calls keys order);
  lin_clock : last_time t0 (calls keys order) <= clock c;
  lin_shared : shared c = run (calls keys order) rl0;
  lin_effect : effect c <$> order = Some <$> outcomes (calls keys order) rl0;
  lin_local : forall g key p,
    goroutines c !! g = Some (key, p) -> local_lin t0 (calls keys order) c key p
}.

End Linear.

(** ** Package regexp, as far as the patterns of the repository go

    A pattern is a regular expression over the bytes of the string.  The
    classes of the repository's patterns hold ASCII characters only, and in
    UTF-8 a byte below 128 is always a character of its own, so matching
    bytes and matching runes agree on them. *)

Module Regexp.
Import Stdlib.Strings.Ascii.

Inductive re : Type :=
  | Void
  | Eps
  | Class (ranges : list (ascii * ascii))
  | Cat (r1 r2 : re)
  | Alt (r1 r2 : re)
  | Star (r : re).

Definition in_range (c : ascii) (r : ascii * ascii) : bool :=
  (N_of_ascii r.1 <=? N_of_ascii c)%N && (N_of_ascii c <=? N_of_ascii r.2)%N.

(** [c] is in the class [[lo1-hi1 lo2-hi2 ...]]. *)
Definition in_class (ranges : list (ascii * ascii)) (c : ascii) : bool :=
  existsb (in_range c) ranges.

Fixpoint nullable (r : re) : bool :=
  match r with
  | Void => false
  | Eps => true
  | Class _ => false
  | Cat r1 r2 => nullable r1 && nullable r2
  | Alt r1 r2 => nullable r1 || nullable r2
  | Star _ => true
  end.

(** What is left of [r] to match after the byte [c]. *)
Fixpoint deriv (c : ascii) (r : re) : re :=
  match r with
  | Void => Void
  | Eps => Void
  | Class ranges => if in_class ranges c then Eps else Void
  | Cat r1 r2 =>
      if nullable r1 then Alt (Cat (deriv c r1) r2) (deriv c r2)
      else Cat (deriv c r1) r2
  | Alt r1 r2 => Alt (deriv c r1) (deriv c r2)
  | Star r1 => Cat (deriv c r1) (Star r1)
  end.

Fixpoint matches (r : re) (s : list ascii) : bool :=
  match s with
  | [] => nullable r
  | c :: s' => matches (deriv c r) s'
  end.

(** [r{n}], [r{0,n}], [r{n,m}], [r{n,}] and [r+]. *)
Fixpoint exactly (n : nat) (r : re) : re :=
  match n with
  | O => Eps
  | S n' => Cat r (exactly n' r)
  end.

Fixpoint at_most (n : nat) (r : re) : re :=
  match n with
  | O => Eps
  | S n' => Alt Eps (Cat r (at_most n' r))
  end.

Definition between (n m : nat) (r : re) : re := Cat (exactly n r) (at_most (m - n) r).
Definition at_least (n : nat) (r : re) : re := Cat (exactly n r) (Star r).
Definition plus (r : re) : re := at_least 1 r.

Definition any : re := Class [(ascii_of_nat 0, ascii_of_nat 255)].
Definition char (c : ascii) : re := Class [(c, c)].

(** [MatchString] for a pattern written between [^] and [$]: the whole
    string has to match. *)
Definition match_whole (r : re) (s : string) : bool :=
  matches r (String.list_ascii_of_string s).

(** [MatchString] for a pattern without anchors: some part of the string
    has to match. *)
Definition match_somewhere (r : re) (s : string) : bool :=
  matches (Cat (Star any) (Cat r (Star any))) (String.list_ascii_of_string s).

(** The strings a pattern denotes. *)
Inductive lang : re -> list ascii -> Prop :=
  | lang_eps : lang Eps []
  | lang_class ranges c : in_class ranges c = true -> lang (Class ranges) [c]
  | lang_cat r1 r2 s1 s2 : lang r1 s1 -> lang r2 s2 -> lang (Cat r1 r2) (s1 ++ s2)
  | lang_alt_l r1 r2 s : lang r1 s -> lang (Alt r1 r2) s
  | lang_alt_r r1 r2 s : lang r2 s -> lang (Alt r1 r2) s
  | lang_star_nil r : lang (Star r) []
  | lang_star_app r s1 s2 : lang r s1 -> lang (Star r) s2 -> lang (Star r) (s1 ++ s2).

End Regexp.

(** ** Package utils: passwords *)

Module Password.
Import Stdlib.Strings.Ascii Regexp.

Definition BcryptCost : Z := 12.
Definition MinPasswordLength : Z := 8.

Inductive error : Type :=
  | ErrWeakPassword
  | ErrBcrypt (msg : string).

Definition error_message (e : error) : string :=
  match e with
  | ErrWeakPassword =>
      "password must be at least 8 characters and contain uppercase, lowercase, and number"
  | ErrBcrypt msg => msg
  end.

Definition upper : re := Class [("A", "Z")]%char.
Definition lower : re := Class [("a", "z")]%char.
Definition digit : re := Class [("0", "9")]%char.

(** [ValidatePassword]; [None] is the nil error. *)
Definition ValidatePassword (password : string) : option error :=
  if Z.of_nat (String.length password) <? MinPasswordLength then Some ErrWeakPassword
  else
    let hasUpper := match_somewhere upper password in
    let hasLower := match_somewhere lower password in
    let hasDigit := match_somewhere digit password in
    if negb hasUpper || negb hasLower || negb hasDigit then Some ErrWeakPassword
    else None.

(** [HashPassword], given [bcrypt.GenerateFromPassword]. *)
Definition HashPassword (GenerateFromPassword : string -> Z -> string + error)
    (password : string) : string + error :=
  match ValidatePassword password with
  | Some err => inr err
  | None =>
      match GenerateFromPassword password BcryptCost with
      | inr err => inr err
      | inl hash => inl hash
      end
  end.

(** [CheckPassword], given [bcrypt.CompareHashAndPassword]; [None] is the
    nil error. *)
Definition CheckPassword (CompareHashAndPassword : string -> string -> option error)
    (password hash : string) : bool :=
  match CompareHashAndPassword hash password with
  | None => true
  | Some _ => false
  end.

End Password.

(** ** Package handlers: the patterns *)

Module Patterns.
Import Stdlib.Strings.Ascii Regexp.

(** [[a-zA-Z0-9_]] *)
Definition word : list (ascii * ascii) :=
  [("a", "z"); ("A", "Z"); ("0", "9"); ("_", "_")]%char.

(** [[a-zA-Z0-9._%+\-]] *)
Definition local_part : list (ascii * ascii) :=
  [("a", "z"); ("A", "Z"); ("0", "9"); (".", "."); ("_", "_"); ("%", "%");
   ("+", "+"); ("-", "-")]%char.

(** [[a-zA-Z0-9.\-]] *)
Definition domain_part : list (ascii * ascii) :=
  [("a", "z"); ("A", "Z"); ("0", "9"); (".", "."); ("-", "-")]%char.

(** [[a-zA-Z]] *)
Definition letter : list (ascii * ascii) := [("a", "z"); ("A", "Z")]%char.

(** [^[a-zA-Z0-9._%+\-]+@[a-zA-Z0-9.\-]+\.[a-zA-Z]{2,}$] *)
Definition emailRegex : re :=
  Cat (plus (Class local_part))
    (Cat (char "@")
       (Cat (plus (Class domain_part))
          (Cat (char ".") (at_least 2 (Class letter))))).

(** [^[a-zA-Z0-9_]{3,50}$] *)
Definition usernameRegex : re := between 3 50 (Class word).

End Patterns.

(** ** Package models and package handlers

    gorm, bcrypt, the JWT library, JSON binding and the auth middleware are
    outside the repository's files at hand: the handlers take what they call
    of them as parameters.  A query that returns a nil error yields [Some];
    any error yields [None].  A handler returns the database it leaves and
    the one response it writes with [c.JSON]. *)

Module Handlers.
Import Regexp Patterns Password.

Record User : Type := mkUser {
  ID : N;
  Username : string;
  Email : string;
  PasswordHash : string;
  CreatedAt : Z;
  UpdatedAt : Z;
  DeletedAt : option Z
}.

Record UserResponse : Type := mkUserResponse {
  rID : N;
  rUsername : string;
  rEmail : string;
  rCreatedAt : Z;
  rUpdatedAt : Z
}.

Definition ToResponse (u : User) : UserResponse :=
  {| rID := ID u; rUsername := Username u; rEmail := Email u;
     rCreatedAt := CreatedAt u; rUpdatedAt := UpdatedAt u |}.

Record RegisterRequest : Type := mkRegisterRequest {
  regUsername : string;
  regEmail : string;
  regPassword : string
}.

Record LoginRequest : Type := mkLoginRequest {
  logEmail : string;
  logPassword : string
}.

Record UpdateUserRequest : Type := mkUpdateUserRequest {
  updUsername : string;
  updEmail : string
}.

(** What a handler passes to [c.JSON]. *)
Inductive payload : Type :=
  | ErrorH (msg : string)                         (* gin.H{"error": msg} *)
  | MessageH (msg : string)                       (* gin.H{"message": msg} *)
  | AuthResponse (token : string) (user : UserResponse)
  | UserJSON (user : UserResponse).

Definition StatusOK : Z := 200.
Definition StatusCreated : Z := 201.
Definition StatusBadRequest : Z := 400.
Definition StatusUnauthorized : Z := 401.
Definition StatusForbidden : Z := 403.
Definition StatusNotFound : Z := 404.
Definition StatusConflict : Z := 409.
Definition StatusInternalServerError : Z := 500.

(** [gin.Params]: [Get] returns the value of the first parameter of that
    name and whether there is one; [c.Param] is [ByName]. *)
Fixpoint Get (ps : list (string * string)) (name : string) : string * bool :=
  match ps with
  | [] => (EmptyString, false)
  | entry :: ps' => if String.eqb entry.1 name then (entry.2, true) else Get ps' name
  end.

Definition ByName (ps : list (string * string)) (name : string) : string :=
  (Get ps name).1.

(** What a handler reads of the request. *)
Record Request : Type := mkRequest {
  Params : list (string * string);
  Body : string
}.

Section WithCollaborators.

Variable DB : Type.

(** [c.ShouldBindJSON]. *)
Variable BindRegister : string -> option RegisterRequest.
Variable BindLogin : string -> option LoginRequest.
Variable BindUpdate : string -> option UpdateUserRequest.

(** [strings.TrimSpace] and [strings.ToLower]. *)
Variable TrimSpace : string -> string.
Variable ToLower : string -> string.

(** [DB.Where("email = ? OR username = ?", email, username).First(&u)]. *)
Variable FirstByEmailOrUsername : string -> string -> DB -> option User.
(** [DB.Where("email = ?", email).First(&u)]. *)
Variable FirstByEmail : string -> DB -> option User.
(** [DB.First(&u, id)] with the path parameter, and with the caller's id. *)
Variable FirstByParam : string -> DB -> option User.
Variable FirstByID : N -> DB -> option User.
(** [DB.Create(&u)]: the database afterwards, and the stored user when the
    error is nil. *)
Variable Create : User -> DB -> DB * option User.
(** [DB.Model(&u).Updates(updates)]: the database afterwards, and the user
    struct afterwards when the error is nil. *)
Variable Updates : User -> gmap string string -> DB -> DB * option User.
(** [DB.Delete(&u)]: the database afterwards, and whether the error is nil. *)
Variable Delete : User -> DB -> DB * bool.

Variable GenerateFromPassword : string -> Z -> string + error.
Variable CompareHashAndPassword : string -> string -> option error.
(** [utils.GenerateToken] with the configuration of the server. *)
Variable GenerateToken : N -> string -> string -> option string.
(** [middleware.GetUserID]. *)
Variable GetUserID : Request -> option N.

Definition Register (c : Request) (db : DB) : DB * (Z * payload) :=
  match BindRegister (Body c) with
  | None => (db, (StatusBadRequest, ErrorH "Invalid request payload"))
  | Some req =>
      let username := TrimSpace (regUsername req) in
      if negb (match_whole usernameRegex username) then
        (db, (StatusBadRequest,
              ErrorH "Username must be 3-50 characters and contain only letters, numbers, and underscores"))
      else
        let email := TrimSpace (ToLower (regEmail req)) in
        if negb (match_whole emailRegex email) then
          (db, (StatusBadRequest, ErrorH "Invalid email format"))
        else
          match FirstByEmailOrUsername email username db with
          | Some _ =>
              (db, (StatusConflict,
                    ErrorH "User with this email or username already exists"))
          | None =>
              match HashPassword GenerateFromPassword (regPassword req) with
              | inr err => (db, (StatusBadRequest, ErrorH (error_message err)))
              | inl passwordHash =>
                  let user := {| ID := 0; Username := username; Email := email;
                                 PasswordHash := passwordHash;
                                 CreatedAt := 0; UpdatedAt := 0; DeletedAt := None |} in
                  match Create user db with
                  | (db', None) =>
                      (db', (StatusInternalServerError, ErrorH "Failed to create user"))
                  | (db', Some user') =>
                      match GenerateToken (ID user') (Username user') (Email user') with
                      | None =>
                          (db', (StatusInternalServerError,
                                 ErrorH "Failed to generate token"))
                      | Some token =>
                          (db', (StatusCreated, AuthResponse token (ToResponse user')))
                      end
                  end
              end
          end
  end.

Definition Login (c : Request) (db : DB) : DB * (Z * payload) :=
  match BindLogin (Body c) with
  | None => (db, (StatusBadRequest, ErrorH "Invalid request payload"))
  | Some req =>
      let email := TrimSpace (ToLower (logEmail req)) in
      match FirstByEmail email db with
      | None => (db, (StatusUnauthorized, ErrorH "Invalid email or password"))
      | Some user =>
          if negb (CheckPassword CompareHashAndPassword (logPassword req)
                     (PasswordHash user)) then
            (db, (StatusUnauthorized, ErrorH "Invalid email or password"))
          else
            match GenerateToken (ID user) (Username user) (Email user) with
            | None =>
                (db, (StatusInternalServerError, ErrorH "Failed to generate token"))
            | Some token => (db, (StatusOK, AuthResponse token (ToResponse user)))
            end
      end
  end.

Definition UpdateUser (c : Request) (db : DB) : DB * (Z * payload) :=
  match GetUserID c with
  | None => (db, (StatusUnauthorized, ErrorH "Unauthorized"))
  | Some userID =>
      let id := ByName (Params c) "id" in
      if (Get (Params c) "id").2 then
        (db, (StatusBadRequest, ErrorH "Invalid user ID"))
      else
        match FirstByParam id db with
        | None => (db, (StatusNotFound, ErrorH "User not found"))
        | Some user =>
            let targetUserID := ID user in
            if negb (targetUserID =? userID)%N then
              (db, (StatusForbidden, ErrorH "You can only update your own profile"))
            else
              match BindUpdate (Body c) with
              | None => (db, (StatusBadRequest, ErrorH "Invalid request payload"))
              | Some req =>
                  if negb (String.eqb (updUsername req) EmptyString)
                     && negb (match_whole usernameRegex (updUsername req)) then
                    (db, (StatusBadRequest,
                          ErrorH "Username must be 3-50 characters and contain only letters, numbers, and underscores"))
                  else
                    let updates1 : gmap string string :=
                      if negb (String.eqb (updUsername req) EmptyString)
                      then <["username" := updUsername req]> ∅ else ∅ in
                    if negb (String.eqb (updEmail req) EmptyString)
                       && negb (match_whole emailRegex (updEmail req)) then
                      (db, (StatusBadRequest, ErrorH "Invalid email format"))
                    else
                      let updates : gmap string string :=
                        if negb (String.eqb (updEmail req) EmptyString)
                        then <["email" := updEmail req]> updates1 else updates1 in
                      if (size updates =? 0)%nat then
                        (db, (StatusBadRequest, ErrorH "No fields to update"))
                      else
                        match Updates user updates db with
                        | (db', None) =>
                            (db', (StatusInternalServerError,
                                   ErrorH "Failed to update user"))
                        | (db', Some user') =>
                            let user'' := default user' (FirstByID userID db') in
                            (db', (StatusOK, UserJSON (ToResponse user'')))
                        end
              end
        end
  end.

Definition DeleteUser (c : Request) (db : DB) : DB * (Z * payload) :=
  match GetUserID c with
  | None => (db, (StatusUnauthorized, ErrorH "Unauthorized"))
  | Some userID =>
      let id := ByName (Params c) "id" in
      match FirstByParam id db with
      | None => (db, (StatusNotFound, ErrorH "User not found"))
      | Some user =>
          if negb (ID user =? userID)%N then
            (db, (StatusForbidden, ErrorH "You can only delete your own profile"))
          else
            match Delete user db with
            | (db', false) =>
                (db', (StatusInternalServerError, ErrorH "Failed to delete user"))
            | (db', true) => (db', (StatusOK, MessageH "User deleted successfully"))
            end
      end
  end.

End WithCollaborators.

End Handlers.

(** ** Requests that get past the limiter *)

(** What a refused request gets written. *)
Definition refusal : list (Z * Gin.H) :=
  [(Gin.StatusTooManyRequests, {[ "error" := rate_limit_message ]})].

(** The calls of [Allow] the middleware makes for a sequence of requests. *)
Definition request_events (reqs : list (string * Z)) : list event :=
  (fun r : string * Z => EvAllow r.1 r.2) <$> reqs.

(** A served request of the client [ip], made in the span of length [len]
    from [s], that was not answered with the refusal. *)
Definition passed (ip : string) (s len : Z)
    (served : (string * Z) * list (Z * Gin.H)) : bool :=
  bool_decide (served.1.1 = ip) && in_span s len served.1.2
  && negb (bool_decide (served.2 = refusal)).

(** ** Basic facts *)

Section Filter.

Lemma Sub_lt_iff now t win :
  Time.minDuration < win <= Time.maxDuration ->
  (Time.Sub now t <? win) = (now - t <? win).
Proof.
  intros [Hlo Hhi]. unfold Time.Sub.
  destruct (Z.ltb_spec (now - t) Time.minDuration).
  - transitivity true; [apply Z.ltb_lt | symmetry; apply Z.ltb_lt]; lia.
  - destruct (Z.ltb_spec Time.maxDuration (now - t)); [|done].
    transitivity false; [apply Z.ltb_ge | symmetry; apply Z.ltb_ge]; lia.
Qed.

Lemma validTimes_acc now win times acc :
  fold_left (fun acc t => if Time.Sub now t <? win then acc ++ [t] else acc) times acc
  = acc ++ List.filter (fun t => Time.Sub now t <? win) times.
Proof.
  revert acc. induction times as [|t times IH]; intros acc; simpl.
  - by rewrite app_nil_r.
  - rewrite IH. destruct (Time.Sub now t <? win); [|done].
    by rewrite <- app_assoc.
Qed.

Lemma validTimes_filter now win times :
  validTimes now win times = List.filter (fun t => Time.Sub now t <? win) times.
Proof. unfold validTimes. by rewrite validTimes_acc. Qed.

Lemma validTimes_nil now win : validTimes now win [] = [].
Proof. done. Qed.

Lemma validTimes_cons now win t times :
  validTimes now win (t :: times) =
  if Time.Sub now t <? win then t :: validTimes now win times
  else validTimes now win times.
Proof. rewrite !validTimes_filter. done. Qed.

Lemma validTimes_length now win times :
  (length (validTimes now win times) <= length times)%nat.
Proof.
  induction times as [|t times IH]; [done|].
  rewrite validTimes_cons. destruct (_ <? _); simpl; lia.
Qed.

Lemma elem_of_validTimes now win times t :
  t ∈ validTimes now win times <-> t ∈ times /\ Time.Sub now t < win.
Proof.
  induction times as [|u times IH].
  - rewrite validTimes_nil. split; [intros H | intros [H _]]; inversion H.
  - rewrite validTimes_cons.
    destruct (Z.ltb_spec (Time.Sub now u) win) as [Hu|Hu];
      rewrite ?elem_of_cons, IH, ?elem_of_cons; split.
    + intros [-> | [? ?]]; auto.
    + intros [[-> | ?] ?]; auto.
    + intros [? ?]; auto.
    + intros [[-> | ?] ?]; [lia | auto].
Qed.

(** Nothing is dropped when every recorded instant is inside the window. *)
Lemma validTimes_all now win times :
  Forall (fun t => Time.Sub now t < win) times ->
  validTimes now win times = times.
Proof.
  induction 1 as [|t times Ht _ IH]; [done|].
  rewrite validTimes_cons, IH.
  by destruct (Z.ltb_spec (Time.Sub now t) win); [|lia].
Qed.

(** Conversely, a filter that keeps the length kept everything. *)
Lemma validTimes_full now win times :
  (length times <= length (validTimes now win times))%nat ->
  validTimes now win times = times.
Proof.
  induction times as [|t times IH]; [done|].
  rewrite validTimes_cons.
  destruct (Time.Sub now t <? win); simpl; intros Hlen.
  - f_equal. apply IH. lia.
  - pose proof (validTimes_length now win times). lia.
Qed.

(** An entry pruned at [tc] and pruned again at a later [now] is the entry
    pruned at [now]. *)
Lemma validTimes_validTimes tc now win times :
  Time.minDuration < win <= Time.maxDuration ->
  tc <= now ->
  validTimes now win (validTimes tc win times) = validTimes now win times.
Proof.
  intros Hw Hle. induction times as [|t times IH]; [done|].
  rewrite (validTimes_cons tc), (validTimes_cons now).
  rewrite !Sub_lt_iff by done.
  destruct (Z.ltb_spec (tc - t) win) as [Htc|Htc].
  - rewrite validTimes_cons, Sub_lt_iff by done. by rewrite IH.
  - rewrite IH. by destruct (Z.ltb_spec (now - t) win); [lia|].
Qed.

End Filter.

(** ** What [cleanup] and [Allow] do to one entry *)

Section Entries.

Lemma cleanup_key_lookup now win key times reqs k :
  cleanup_key now win key times reqs !! k =
  if decide (key = k) then pruned_entry now win times else reqs !! k.
Proof.
  unfold cleanup_key, pruned_entry.
  destruct (validTimes now win times) as [|v valid]; simpl.
  - rewrite lookup_delete. by case_decide.
  - rewrite lookup_insert. by case_decide.
Qed.

Lemma cleanup_fold_lookup now win (m acc : gmap string (list Z)) k :
  map_fold (cleanup_key now win) acc m !! k =
  match m !! k with
  | Some times => pruned_entry now win times
  | None => acc !! k
  end.
Proof.
  revert m.
  apply (map_fold_weak_ind (fun r m =>
    r !! k = match m !! k with
             | Some times => pruned_entry now win times
             | None => acc !! k
             end)).
  - by rewrite lookup_empty.
  - intros i x m r Hi IH.
    rewrite cleanup_key_lookup, lookup_insert.
    by case_decide.
Qed.

(** The order in which the range loop visits the keys does not matter:
    each entry ends up pruned, or gone when nothing of it is left. *)
Lemma cleanup_lookup now rl k :
  requests (cleanup now rl) !! k =
  requests rl !! k ≫= pruned_entry now (window rl).
Proof.
  unfold cleanup; simpl. rewrite cleanup_fold_lookup.
  by destruct (requests rl !! k).
Qed.

Lemma cleanup_limit now rl : limit (cleanup now rl) = limit rl.
Proof. done. Qed.

Lemma cleanup_window now rl : window (cleanup now rl) = window rl.
Proof. done. Qed.

Lemma Allow_limit key now rl : limit (Allow key now rl).2 = limit rl.
Proof. unfold Allow. destruct (_ !! _); [destruct (_ >=? _)|]; done. Qed.

Lemma Allow_window key now rl : window (Allow key now rl).2 = window rl.
Proof. unfold Allow. destruct (_ !! _); [destruct (_ >=? _)|]; done. Qed.

(** [Allow key] leaves every other entry as it was. *)
Lemma Allow_lookup_ne key now rl k :
  key ≠ k -> requests (Allow key now rl).2 !! k = requests rl !! k.
Proof.
  intros Hne. unfold Allow.
  destruct (requests rl !! key); [destruct (_ >=? _)|]; simpl;
    by rewrite ?lookup_insert_ne.
Qed.

Lemma Allow_decide_entry key now rl :
  (Allow key now rl).1 = (decide_entry (limit rl) (window rl) now (requests rl !! key)).1
  /\ requests (Allow key now rl).2 !! key
     = (decide_entry (limit rl) (window rl) now (requests rl !! key)).2.
Proof.
  unfold Allow, decide_entry.
  destruct (requests rl !! key) as [times|] eqn:E; simpl.
  - destruct (_ >=? _); simpl; [done|]. by rewrite lookup_insert_eq.
  - by rewrite lookup_insert_eq.
Qed.

Lemma step_limit rl e : limit (step rl e) = limit rl.
Proof. destruct e; [apply Allow_limit | apply cleanup_limit]. Qed.

Lemma step_window rl e : window (step rl e) = window rl.
Proof. destruct e; [apply Allow_window | apply cleanup_window]. Qed.

Lemma run_limit evs rl : limit (run evs rl) = limit rl.
Proof.
  revert rl. induction evs as [|e evs IH]; intros rl; [done|].
  simpl. by rewrite IH, step_limit.
Qed.

Lemma run_window evs rl : window (run evs rl) = window rl.
Proof.
  revert rl. induction evs as [|e evs IH]; intros rl; [done|].
  simpl. by rewrite IH, step_window.
Qed.

End Entries.

(** ** Invariants of the reachable states *)

Section Invariants.

Lemma bounded_New lim win : bounded (NewRateLimiter lim win).
Proof. intros k times. simpl. by rewrite lookup_empty. Qed.

Lemma not_after_New t lim win : not_after t (NewRateLimiter lim win).
Proof. intros k times. simpl. by rewrite lookup_empty. Qed.

Lemma pruned_entry_Some now win times valid :
  pruned_entry now win times = Some valid ->
  valid = validTimes now win times /\ valid <> [].
Proof.
  unfold pruned_entry. destruct (validTimes now win times); [done|].
  intros [= <-]. done.
Qed.

Lemma bounded_cleanup now rl : bounded rl -> bounded (cleanup now rl).
Proof.
  intros Hb k valid. rewrite cleanup_lookup, cleanup_limit.
  destruct (requests rl !! k) as [times|] eqn:E; [simpl|done].
  intros [-> _]%pruned_entry_Some.
  pose proof (validTimes_length now (window rl) times).
  specialize (Hb k times E). lia.
Qed.

Lemma bounded_Allow key now rl :
  1 <= limit rl -> bounded rl -> bounded (Allow key now rl).2.
Proof.
  intros Hl Hb k times. rewrite Allow_limit.
  destruct (decide (key = k)) as [<-|Hne].
  - destruct (Allow_decide_entry key now rl) as [_ ->].
    unfold decide_entry.
    destruct (requests rl !! key) as [old|] eqn:E; simpl.
    + destruct (Z.geb_spec (Z.of_nat (length (validTimes now (window rl) old))) (limit rl));
        simpl; intros [= <-]; [by eapply Hb|].
      rewrite length_app; simpl. lia.
    + intros [= <-]. simpl. lia.
  - rewrite Allow_lookup_ne by done. apply Hb.
Qed.

Lemma bounded_run evs rl :
  1 <= limit rl -> bounded rl -> bounded (run evs rl).
Proof.
  revert rl. induction evs as [|e evs IH]; intros rl Hl Hb; [done|].
  simpl. apply IH; [by rewrite step_limit|].
  destruct e; [by apply bounded_Allow | by apply bounded_cleanup].
Qed.

Lemma not_after_mono t t' rl : t <= t' -> not_after t rl -> not_after t' rl.
Proof.
  intros Hle Hn k times E. eapply Forall_impl; [by eapply Hn|].
  simpl. intros; lia.
Qed.

Lemma Forall_validTimes (P : Z -> Prop) now win times :
  Forall P times -> Forall P (validTimes now win times).
Proof.
  intros H. apply Forall_forall. intros t [Ht _]%elem_of_validTimes.
  by eapply Forall_forall in H.
Qed.

Lemma not_after_cleanup t now rl : not_after t rl -> not_after t (cleanup now rl).
Proof.
  intros Hn k valid. rewrite cleanup_lookup.
  destruct (requests rl !! k) as [times|] eqn:E; [simpl|done].
  intros [-> _]%pruned_entry_Some.
  apply Forall_validTimes. by eapply Hn.
Qed.

Lemma not_after_Allow key now rl :
  not_after now rl -> not_after now (Allow key now rl).2.
Proof.
  intros Hn k times.
  destruct (decide (key = k)) as [<-|Hne].
  - destruct (Allow_decide_entry key now rl) as [_ ->].
    unfold decide_entry.
    destruct (requests rl !! key) as [old|] eqn:E; simpl.
    + destruct (_ >=? _); simpl; intros [= <-]; [by eapply Hn|].
      apply Forall_app. split; [apply Forall_validTimes; by eapply Hn|].
      apply Forall_singleton. lia.
    + intros [= <-]. apply Forall_singleton. lia.
  - rewrite Allow_lookup_ne by done. apply Hn.
Qed.

Lemma not_after_run evs t rl :
  monotone_from t evs -> not_after t rl ->
  not_after (last_time t evs) (run evs rl).
Proof.
  revert t rl. induction evs as [|e evs IH]; intros t rl Hm Hn; [done|].
  destruct Hm as [Hle Hm]. simpl. apply IH; [done|].
  apply (not_after_mono t (event_time e)) in Hn; [|done].
  destruct e; simpl in *; [by apply not_after_Allow | by apply not_after_cleanup].
Qed.

End Invariants.

(** ** Sequential behaviour of [Allow] *)

Section Sequential.

Lemma history_None rl k : requests rl !! k = None -> history rl k = [].
Proof. unfold history. by intros ->. Qed.

Lemma history_Some rl k times : requests rl !! k = Some times -> history rl k = times.
Proof. unfold history. by intros ->. Qed.

Lemma filter_validTimes now win times :
  Time.minDuration < win <= Time.maxDuration ->
  validTimes now win times = List.filter (fun t => now - t <? win) times.
Proof.
  intros Hw. rewrite validTimes_filter.
  induction times as [|t times IH]; [done|].
  simpl. by rewrite IH, Sub_lt_iff.
Qed.

(** On a limiter whose entries respect the limit, a call that is refused
    found nothing stale: the entry it leaves in place is already pruned. *)
Lemma Allow_history now k rl :
  1 <= limit rl ->
  Time.minDuration < window rl <= Time.maxDuration ->
  bounded rl ->
  history (Allow k now rl).2 k =
    List.filter (fun t => now - t <? window rl) (history rl k)
    ++ (if (Allow k now rl).1 then [now] else []).
Proof.
  intros Hl Hw Hb. unfold history at 1.
  destruct (Allow_decide_entry k now rl) as [-> ->].
  unfold decide_entry.
  destruct (requests rl !! k) as [times|] eqn:E.
  - rewrite (history_Some _ _ _ E), <- filter_validTimes by done.
    destruct (Z.geb_spec (Z.of_nat (length (validTimes now (window rl) times)))
                (limit rl)) as [Hge|Hlt]; simpl; [|done].
    rewrite app_nil_r. symmetry. apply validTimes_full.
    specialize (Hb k times E). lia.
  - by rewrite (history_None _ _ E).
Qed.

(** Calls made while every recorded instant is still inside the window
    are admitted as long as fewer than [limit] are recorded. *)
Lemma Allow_within t0 now k rl :
  1 <= limit rl ->
  0 < window rl <= Time.maxDuration ->
  Forall (fun t => t0 <= t < t0 + window rl) (history rl k) ->
  t0 <= now < t0 + window rl ->
  (Allow k now rl).1 = bool_decide (Z.of_nat (length (history rl k)) < limit rl)
  /\ history (Allow k now rl).2 k =
     if bool_decide (Z.of_nat (length (history rl k)) < limit rl)
     then history rl k ++ [now] else history rl k.
Proof.
  intros Hl Hw Hin Hnow. unfold history at 3.
  destruct (Allow_decide_entry k now rl) as [-> ->].
  unfold decide_entry, history in *.
  destruct (requests rl !! k) as [times|] eqn:E; simpl in *.
  - rewrite validTimes_all.
    + destruct (Z.geb_spec (Z.of_nat (length times)) (limit rl));
        [rewrite bool_decide_eq_false_2 by lia | rewrite bool_decide_eq_true_2 by lia];
        done.
    + eapply Forall_impl; [exact Hin|]. simpl. intros t Ht.
      assert (Hs := Sub_lt_iff now t (window rl)).
      apply Z.ltb_lt. rewrite Hs; [apply Z.ltb_lt; lia|].
      unfold Time.minDuration; lia.
  - by rewrite bool_decide_eq_true_2 by lia.
Qed.

Lemma allows_limit k nows : forall rl, limit (allows k nows rl).2 = limit rl.
Proof.
  induction nows as [|now nows IH]; intros rl; [done|].
  simpl. by rewrite IH, Allow_limit.
Qed.

Lemma allows_window k nows : forall rl, window (allows k nows rl).2 = window rl.
Proof.
  induction nows as [|now nows IH]; intros rl; [done|].
  simpl. by rewrite IH, Allow_window.
Qed.

Lemma allows_within t0 k nows : forall rl,
  1 <= limit rl ->
  0 < window rl <= Time.maxDuration ->
  Forall (fun t => t0 <= t < t0 + window rl) (history rl k) ->
  Forall (fun t => t0 <= t < t0 + window rl) nows ->
  let quota := Z.to_nat (limit rl - Z.of_nat (length (history rl k))) in
  (allows k nows rl).1 =
    replicate (Nat.min (length nows) quota) true
    ++ replicate (length nows - quota)%nat false
  /\ history (allows k nows rl).2 k = history rl k ++ take quota nows.
Proof.
  induction nows as [|now nows IH]; intros rl Hl Hw Hin Hnows quota.
  { simpl. by rewrite take_nil, app_nil_r. }
  apply Forall_cons in Hnows as [Hnow Hnows].
  destruct (Allow_within t0 now k rl Hl Hw Hin Hnow) as [Hres Hhist].
  simpl. rewrite Hres.
  specialize (IH (Allow k now rl).2).
  rewrite Allow_limit, Allow_window, Hhist in IH.
  case_bool_decide as Hlt.
  - assert (Hin' : Forall (fun t => t0 <= t < t0 + window rl) (history rl k ++ [now])).
    { apply Forall_app. split; [done|]. by apply Forall_singleton. }
    destruct (IH Hl Hw Hin' Hnows) as [-> ->]. rewrite length_app; simpl.
    replace quota with
      (S (Z.to_nat (limit rl - Z.of_nat (length (history rl k) + 1)%nat))) by lia.
    simpl. by rewrite <- app_assoc.
  - destruct (IH Hl Hw Hin Hnows) as [-> ->]. fold quota.
    replace quota with 0%nat by lia.
    by rewrite Nat.min_0_r, !Nat.sub_0_r.
Qed.

Lemma allows_app k nows1 nows2 : forall rl,
  allows k (nows1 ++ nows2) rl
  = ((allows k nows1 rl).1 ++ (allows k nows2 (allows k nows1 rl).2).1,
     (allows k nows2 (allows k nows1 rl).2).2).
Proof.
  induction nows1 as [|now nows1 IH]; intros rl; simpl.
  - by destruct (allows k nows2 rl).
  - by rewrite IH.
Qed.

Lemma bounded_allows k nows : forall rl,
  1 <= limit rl -> bounded rl -> bounded (allows k nows rl).2.
Proof.
  induction nows as [|now nows IH]; intros rl Hl Hb; [done|].
  simpl. apply IH; [by rewrite Allow_limit | by apply bounded_Allow].
Qed.

(** Once the oldest instant recorded for a key has left the window, there
    is room for one more call. *)
Lemma Allow_oldest_expired k now rl t1 rest :
  Time.minDuration < window rl <= Time.maxDuration ->
  bounded rl ->
  requests rl !! k = Some (t1 :: rest) ->
  window rl <= now - t1 ->
  (Allow k now rl).1 = true.
Proof.
  intros Hw Hb E Hold.
  destruct (Allow_decide_entry k now rl) as [-> _].
  rewrite E. unfold decide_entry.
  rewrite validTimes_cons, Sub_lt_iff by done.
  destruct (Z.ltb_spec (now - t1) (window rl)); [lia|].
  pose proof (validTimes_length now (window rl) rest).
  specialize (Hb k _ E). simpl in Hb.
  by destruct (Z.geb_spec (Z.of_nat (length (validTimes now (window rl) rest)))
                 (limit rl)); [lia|].
Qed.

(** The quota is used up by [first :: rest], further calls [extra] inside
    the window are refused, and the call made when [first] is [window] old is
    admitted again. *)
Lemma rollover_after_exhaustion (L W : Z) (k : string) (first : Z)
    (rest extra : list Z) (now : Z) :
  1 <= L ->
  0 < W <= Time.maxDuration ->
  length (first :: rest) = Z.to_nat L ->
  Forall (fun t => first <= t < first + W) (rest ++ extra) ->
  W <= now - first ->
  (allows k ((first :: rest) ++ extra ++ [now]) (NewRateLimiter L W)).1
  = replicate (Z.to_nat L) true ++ replicate (length extra) false ++ [true].
Proof.
  intros HL HW Hlen Hin Hold.
  assert (Hfresh : history (NewRateLimiter L W) k = []).
  { unfold history; simpl. by rewrite lookup_empty. }
  set (nows := (first :: rest) ++ extra).
  assert (Hall : Forall (fun t => first <= t < first + W) nows).
  { unfold nows. simpl. apply Forall_cons. split; [lia | done]. }
  assert (Hnows : length nows = (Z.to_nat L + length extra)%nat).
  { unfold nows. rewrite length_app. lia. }
  assert (Hin0 : Forall (fun t => first <= t < first + W) (history (NewRateLimiter L W) k)).
  { rewrite Hfresh. apply Forall_nil_2. }
  pose proof (allows_within first k nows (NewRateLimiter L W) HL HW Hin0 Hall) as Hlem.
  cbv zeta in Hlem. rewrite Hfresh in Hlem.
  replace (Z.to_nat (limit (NewRateLimiter L W) - Z.of_nat (length (@nil Z))))
    with (Z.to_nat L) in Hlem by (simpl; lia).
  destruct Hlem as [Hres Hhist].
  rewrite app_assoc. fold nows. rewrite allows_app. cbn [fst].
  rewrite Hres, Hnows.
  replace (Nat.min (Z.to_nat L + length extra) (Z.to_nat L)) with (Z.to_nat L) by lia.
  replace (Z.to_nat L + length extra - Z.to_nat L)%nat with (length extra) by lia.
  rewrite <- app_assoc. do 2 f_equal.
  set (rl := (allows k nows (NewRateLimiter L W)).2) in *.
  assert (Hb : bounded rl).
  { apply bounded_allows; [done | apply bounded_New]. }
  assert (Hw : window rl = W) by apply allows_window.
  assert (Htake : take (Z.to_nat L) nows = first :: rest).
  { unfold nows. rewrite <- Hlen. apply take_app_length. }
  rewrite Htake in Hhist. simpl in Hhist.
  unfold history in Hhist.
  destruct (requests rl !! k) as [times|] eqn:E; simpl in Hhist; [subst times|done].
  cbn [allows fst]. f_equal.
  apply (Allow_oldest_expired k now rl first rest); rewrite ?Hw; try done.
  unfold Time.minDuration. lia.
Qed.

(** Two limiters with the same constants and the same entry for a key
    answer every sequence of calls for that key alike. *)
Lemma allows_entry_ext k nows : forall rl1 rl2,
  limit rl1 = limit rl2 -> window rl1 = window rl2 ->
  requests rl1 !! k = requests rl2 !! k ->
  (allows k nows rl1).1 = (allows k nows rl2).1
  /\ requests (allows k nows rl1).2 !! k = requests (allows k nows rl2).2 !! k.
Proof.
  induction nows as [|now nows IH]; intros rl1 rl2 Hl Hw He; [done|].
  destruct (Allow_decide_entry k now rl1) as [R1 E1].
  destruct (Allow_decide_entry k now rl2) as [R2 E2].
  rewrite Hl, Hw, He in R1, E1.
  destruct (IH (Allow k now rl1).2 (Allow k now rl2).2) as [IH1 IH2].
  - by rewrite !Allow_limit.
  - by rewrite !Allow_window.
  - congruence.
  - simpl. split; [f_equal; congruence | done].
Qed.

Lemma allows_lookup_ne k nows k' : forall rl,
  k ≠ k' -> requests (allows k nows rl).2 !! k' = requests rl !! k'.
Proof.
  induction nows as [|now nows IH]; intros rl Hne; [done|].
  simpl. rewrite IH by done. by apply Allow_lookup_ne.
Qed.



(** *** [cleanup] cannot be observed through [Allow] *)

Lemma Allow_by_history k now rl :
  1 <= limit rl ->
  (Allow k now rl).1
  = negb (Z.of_nat (length (validTimes now (window rl) (history rl k))) >=? limit rl)
  /\ validTimes now (window rl) (history (Allow k now rl).2 k)
     = validTimes now (window rl)
         (validTimes now (window rl) (history rl k)
          ++ (if (Allow k now rl).1 then [now] else [])).
Proof.
  intros Hl.
  destruct (Allow_decide_entry k now rl) as [R E].
  rewrite R. unfold history. rewrite E. clear R E.
  unfold decide_entry.
  destruct (requests rl !! k) as [times|]; simpl.
  - destruct (_ >=? _); simpl; [|done].
    rewrite app_nil_r, !validTimes_filter.
    split; [done|]. induction times as [|t times IH]; [done|].
    simpl. destruct (Time.Sub now t <? window rl) eqn:E; simpl; rewrite ?E; congruence.
  - by destruct (Z.geb_spec (Z.of_nat 0) (limit rl)); [lia|].
Qed.

Lemma same_view_later t t' rl1 rl2 :
  Time.minDuration < window rl1 <= Time.maxDuration ->
  t <= t' -> same_view t rl1 rl2 -> same_view t' rl1 rl2.
Proof.
  intros Hw Hle (Hl & Hwin & Hv). split; [done|]. split; [done|].
  intros k. rewrite <- (validTimes_validTimes t t' (window rl1)) by done.
  rewrite Hv, Hwin. apply validTimes_validTimes; [by rewrite <- Hwin | done].
Qed.

Lemma same_view_Allow k now rl1 rl2 :
  1 <= limit rl1 ->
  same_view now rl1 rl2 ->
  (Allow k now rl1).1 = (Allow k now rl2).1
  /\ same_view now (Allow k now rl1).2 (Allow k now rl2).2.
Proof.
  intros Hl1 (Hl & Hwin & Hv).
  assert (Hl2 : 1 <= limit rl2) by lia.
  destruct (Allow_by_history k now rl1 Hl1) as [R1 V1].
  destruct (Allow_by_history k now rl2 Hl2) as [R2 V2].
  assert (HR : (Allow k now rl1).1 = (Allow k now rl2).1).
  { rewrite R1, R2, Hv, Hl. done. }
  split; [done|].
  split; [by rewrite !Allow_limit|]. split; [by rewrite !Allow_window|].
  intros k'. rewrite !Allow_window.
  destruct (decide (k = k')) as [<-|Hne].
  - rewrite V1, V2, HR, Hv, Hwin. done.
  - unfold history. rewrite !Allow_lookup_ne by done. apply Hv.
Qed.

Lemma history_cleanup now rl k :
  history (cleanup now rl) k = validTimes now (window rl) (history rl k).
Proof.
  unfold history. rewrite cleanup_lookup.
  destruct (requests rl !! k) as [times|]; [simpl|done].
  unfold pruned_entry. by destruct (validTimes now (window rl) times).
Qed.

Lemma validTimes_idem now win times :
  validTimes now win (validTimes now win times) = validTimes now win times.
Proof.
  apply validTimes_all, Forall_forall.
  intros t [_ Ht]%elem_of_validTimes. exact Ht.
Qed.

Lemma same_view_cleanup now rl1 rl2 :
  same_view now rl1 rl2 -> same_view now (cleanup now rl1) (cleanup now rl2).
Proof.
  intros (Hl & Hwin & Hv). split; [done|]. split; [done|].
  intros k. rewrite !history_cleanup, !cleanup_window. by rewrite Hv, Hwin.
Qed.

Lemma cleanup_same_view now rl : same_view now (cleanup now rl) rl.
Proof.
  split; [done|]. split; [done|].
  intros k. rewrite history_cleanup, cleanup_window. apply validTimes_idem.
Qed.

Lemma same_view_outcomes evs : forall t rl1 rl2,
  1 <= limit rl1 ->
  Time.minDuration < window rl1 <= Time.maxDuration ->
  monotone_from t evs ->
  same_view t rl1 rl2 ->
  outcomes evs rl1 = outcomes evs rl2.
Proof.
  induction evs as [|e evs IH]; intros t rl1 rl2 Hl Hw Hmono Hsame; [done|].
  destruct Hmono as [Hle Hmono].
  apply (same_view_later t (event_time e)) in Hsame; [|done|done].
  destruct e as [k now|now]; simpl in *.
  - destruct (same_view_Allow k now rl1 rl2 Hl Hsame) as [-> Hsame'].
    f_equal. apply (IH now); rewrite ?Allow_limit, ?Allow_window; done.
  - apply (IH now); rewrite ?cleanup_limit, ?cleanup_window; try done.
    by apply same_view_cleanup.
Qed.

(** X20.  Whatever is called after a [cleanup] pass is answered as it would
    have been without the pass (limit at least 1, clock not going back). *)
Lemma cleanup_unobservable tc evs rl :
  1 <= limit rl ->
  Time.minDuration < window rl <= Time.maxDuration ->
  monotone_from tc evs ->
  outcomes evs (cleanup tc rl) = outcomes evs rl.
Proof.
  intros Hl Hw Hmono.
  apply (same_view_outcomes evs tc); rewrite ?cleanup_limit, ?cleanup_window; try done.
  apply cleanup_same_view.
Qed.

End Sequential.

(** ** The specification's properties: sequential calls *)

Section SequentialClaims.

(** C1.  On a fresh limiter with limit [L >= 1] and window [W > 0], [L + 1]
    calls of [Allow k] made at instants that all lie in one span shorter than
    [W] answer [true] the first [L] times and [false] the last time. *)
Theorem Allow_quota_then_denied (L W : Z) (k : string) (t0 : Z) (nows : list Z) :
  1 <= L ->
  0 < W <= Time.maxDuration ->
  length nows = S (Z.to_nat L) ->
  Forall (fun t => t0 <= t < t0 + W) nows ->
  (allows k nows (NewRateLimiter L W)).1 = replicate (Z.to_nat L) true ++ [false].
Proof.
  intros HL HW Hlen Hnows.
  assert (Hfresh : history (NewRateLimiter L W) k = []).
  { unfold history; simpl. by rewrite lookup_empty. }
  destruct (allows_within t0 k nows (NewRateLimiter L W)) as [-> _]; simpl;
    rewrite ?Hfresh; try done.
  rewrite Hlen; simpl length. rewrite Z.sub_0_r.
  replace (Nat.min (S (Z.to_nat L)) (Z.to_nat L)) with (Z.to_nat L) by lia.
  by replace (S (Z.to_nat L) - Z.to_nat L)%nat with 1%nat by lia.
Qed.

Lemma Allow_quota_then_denied_witness :
  (allows "1.2.3.4" [0; 1; 2; 3] (NewRateLimiter 3 Time.Minute)).1
  = [true; true; true; false].
Proof.
  apply (Allow_quota_then_denied 3 Time.Minute "1.2.3.4" 0 [0; 1; 2; 3]).
  - lia.
  - unfold Time.Minute, Time.Second, Time.Nanosecond, Time.maxDuration. lia.
  - reflexivity.
  - unfold Time.Minute, Time.Second, Time.Nanosecond.
    repeat (apply Forall_cons_2; [simpl; lia|]). apply Forall_nil_2.
Defined.

(** C2.  In any state the limiter reaches (limit at least 1), the sequence
    [Allow] leaves for a key is the old one without the instants [t] with
    [now - t >= window], instants strictly inside the window being kept, plus
    [now] when the call is admitted; and once the oldest recorded instant of a
    key is at least [window] old, the next call for that key is admitted. *)
Theorem Allow_stale_rollover (L W : Z) (evs : list event) (k : string) (now : Z) :
  1 <= L ->
  0 < W <= Time.maxDuration ->
  history (Allow k now (run evs (NewRateLimiter L W))).2 k
    = List.filter (fun t => negb (W <=? now - t)) (history (run evs (NewRateLimiter L W)) k)
      ++ (if (Allow k now (run evs (NewRateLimiter L W))).1 then [now] else [])
  /\ (forall t1 rest,
        requests (run evs (NewRateLimiter L W)) !! k = Some (t1 :: rest) ->
        W <= now - t1 ->
        (Allow k now (run evs (NewRateLimiter L W))).1 = true).
Proof.
  intros HL HW.
  assert (Hb : bounded (run evs (NewRateLimiter L W)))
    by (apply bounded_run; [done | apply bounded_New]).
  assert (Hl : limit (run evs (NewRateLimiter L W)) = L) by by rewrite run_limit.
  assert (Hw : window (run evs (NewRateLimiter L W)) = W) by by rewrite run_window.
  assert (Hr : Time.minDuration < W <= Time.maxDuration)
    by (unfold Time.minDuration; lia).
  split.
  - rewrite Allow_history; rewrite ?Hl, ?Hw; try done.
    f_equal. apply filter_ext. intros t. rewrite Z.leb_antisym. by rewrite negb_involutive.
  - intros t1 rest E Hold.
    apply (Allow_oldest_expired k now _ t1 rest); rewrite ?Hw; done.
Qed.

Lemma Allow_stale_rollover_witness :
  (Allow "k" 1100000000
     (run [EvAllow "k" 0; EvAllow "k" 0; EvAllow "k" 0; EvAllow "k" 0]
        (NewRateLimiter 3 Time.Second))).1 = true.
Proof.
  refine (proj2 (Allow_stale_rollover 3 Time.Second
           [EvAllow "k" 0; EvAllow "k" 0; EvAllow "k" 0; EvAllow "k" 0]
           "k" 1100000000 _ _) 0 [0; 0] _ _).
  - lia.
  - unfold Time.Second, Time.Nanosecond, Time.maxDuration. lia.
  - vm_compute. reflexivity.
  - unfold Time.Second, Time.Nanosecond. lia.
Defined.

(** The example of the specification: limit 3, window one second; calls at
    0, 0, 0, 0 and 1.1 s. *)
Example rollover_example :
  (allows "k" [0; 0; 0; 0; 1100000000] (NewRateLimiter 3 Time.Second)).1
  = [true; true; true; false; true].
Proof. vm_compute. reflexivity. Qed.


(** C3.  In an execution that starts from a fresh limiter (limit at least 1,
    positive window) and reads a clock that does not go backwards, right after
    [Allow k] at [now] the key [k] is present and each instant recorded for it
    lies in [[now - window, now]]; this includes the refused call, which
    leaves the sequence as it found it, with nothing appended. *)
Theorem Allow_leaves_entry_in_window (L W : Z) (t0 : Z) (evs : list event)
    (k : string) (now : Z) :
  1 <= L ->
  0 < W <= Time.maxDuration ->
  monotone_from t0 evs ->
  last_time t0 evs <= now ->
  (exists times,
      requests (Allow k now (run evs (NewRateLimiter L W))).2 !! k = Some times
      /\ Forall (fun t => now - W <= t <= now) times)
  /\ ((Allow k now (run evs (NewRateLimiter L W))).1 = false ->
      requests (Allow k now (run evs (NewRateLimiter L W))).2 !! k
      = requests (run evs (NewRateLimiter L W)) !! k).
Proof.
  intros HL HW Hmono Hlast.
  set (rl := run evs (NewRateLimiter L W)).
  assert (Hb : bounded rl) by (apply bounded_run; [done | apply bounded_New]).
  assert (Hn : not_after now rl).
  { apply (not_after_mono (last_time t0 evs)); [done|].
    apply not_after_run; [done | apply not_after_New]. }
  assert (Hl : limit rl = L) by apply run_limit.
  assert (Hw : window rl = W) by apply run_window.
  assert (Hr : Time.minDuration < W <= Time.maxDuration)
    by (unfold Time.minDuration; lia).
  split.
  - pose proof (Allow_history now k rl) as Hh.
    rewrite Hl, Hw in Hh. specialize (Hh HL Hr Hb).
    pose proof (not_after_Allow k now rl Hn) as Hn'.
    destruct (Allow_decide_entry k now rl) as [_ He].
    destruct (requests (Allow k now rl).2 !! k) as [times|] eqn:E.
    + exists times. split; [done|].
      pose proof (Hn' k times E) as Hle.
      rewrite (history_Some _ _ _ E) in Hh.
      apply Forall_forall. intros t Ht.
      split; [|by eapply Forall_forall in Hle].
      rewrite Hh in Ht. apply elem_of_app in Ht as [Ht|Ht].
      * apply list_elem_of_In, filter_In in Ht as [_ Ht].
        apply Z.ltb_lt in Ht. lia.
      * destruct (Allow k now rl).1; [|by inversion Ht].
        apply list_elem_of_singleton in Ht as ->. lia.
    + unfold decide_entry in He.
      destruct (requests rl !! k); [destruct (_ >=? _)|]; done.
  - intros Hdenied. unfold Allow in *.
    destruct (requests rl !! k) as [times|] eqn:E; [|done].
    destruct (_ >=? _); [simpl; by rewrite E | done].
Qed.

Lemma Allow_leaves_entry_in_window_witness :
  exists times,
    requests (Allow "k" 70
      (run [EvAllow "k" 0; EvAllow "k" 50; EvCleanup 60]
         (NewRateLimiter 2 100))).2 !! "k" = Some times
    /\ Forall (fun t => 70 - 100 <= t <= 70) times.
Proof.
  refine (proj1 (Allow_leaves_entry_in_window 2 100 0
           [EvAllow "k" 0; EvAllow "k" 50; EvCleanup 60] "k" 70 _ _ _ _)).
  - lia.
  - unfold Time.maxDuration. lia.
  - simpl. lia.
  - simpl. lia.
Defined.

(** C4.  A refused call records nothing: when [Allow k] answers [false] the
    limiter is left exactly as it was, so every later execution, including
    the calls made for [k] once the window has rolled over, yields the
    answers and the states it would have yielded without the refused call. *)
Theorem Allow_denied_not_recorded (k : string) (now : Z) (rl : RateLimiter) :
  (Allow k now rl).1 = false ->
  (Allow k now rl).2 = rl
  /\ (forall k' nows, allows k' nows (Allow k now rl).2 = allows k' nows rl)
  /\ (forall evs, run evs (Allow k now rl).2 = run evs rl).
Proof.
  intros Hdenied.
  assert (Hsame : (Allow k now rl).2 = rl).
  { unfold Allow in *. destruct (requests rl !! k); [|done].
    by destruct (_ >=? _). }
  rewrite Hsame. done.
Qed.

Lemma Allow_denied_not_recorded_witness :
  (Allow "k" 5 (run [EvAllow "k" 0] (NewRateLimiter 1 100))).2
  = run [EvAllow "k" 0] (NewRateLimiter 1 100).
Proof.
  refine (proj1 (Allow_denied_not_recorded "k" 5
                   (run [EvAllow "k" 0] (NewRateLimiter 1 100)) _)).
  vm_compute. reflexivity.
Defined.

(** C5.  A [cleanup] pass does not change what [Allow] answers: for a limiter
    with limit at least 1, the answer of [Allow k] at [now] is the same
    whether or not a pass of [cleanup] ran before it at some [tc <= now]. *)
Theorem cleanup_keeps_decision (rl : RateLimiter) (k : string) (tc now : Z) :
  1 <= limit rl ->
  Time.minDuration < window rl <= Time.maxDuration ->
  tc <= now ->
  (Allow k now (cleanup tc rl)).1 = (Allow k now rl).1.
Proof.
  intros Hl Hw Hle.
  destruct (Allow_decide_entry k now (cleanup tc rl)) as [-> _].
  destruct (Allow_decide_entry k now rl) as [-> _].
  rewrite cleanup_lookup, cleanup_limit, cleanup_window.
  destruct (requests rl !! k) as [times|]; [simpl|done].
  pose proof (validTimes_validTimes tc now (window rl) times Hw Hle) as Hvv.
  unfold pruned_entry.
  destruct (validTimes tc (window rl) times) as [|v valid] eqn:E; simpl.
  - rewrite <- Hvv. simpl.
    by destruct (Z.geb_spec (Z.of_nat 0) (limit rl)); [lia|].
  - rewrite Hvv. by destruct (_ >=? _).
Qed.

Lemma cleanup_keeps_decision_witness :
  (Allow "k" 130 (cleanup 120 (run [EvAllow "k" 0; EvAllow "k" 90] (NewRateLimiter 2 100)))).1
  = (Allow "k" 130 (run [EvAllow "k" 0; EvAllow "k" 90] (NewRateLimiter 2 100))).1.
Proof.
  apply (cleanup_keeps_decision
           (run [EvAllow "k" 0; EvAllow "k" 90] (NewRateLimiter 2 100)) "k" 120 130).
  - rewrite run_limit. simpl. lia.
  - rewrite run_window. unfold Time.minDuration, Time.maxDuration. simpl. lia.
  - lia.
Defined.

(** C6.  Keys are independent: [Allow A] leaves the entry of every other key
    untouched, and for distinct keys [A] and [B] the answers to any sequence
    of calls [Allow B] are the same after any sequence of calls [Allow A] as
    without them. *)
Theorem distinct_keys_independent (A B : string) (rl : RateLimiter)
    (nowsA nowsB : list Z) :
  A ≠ B ->
  (forall now, requests (Allow A now rl).2 !! B = requests rl !! B)
  /\ requests (allows A nowsA rl).2 !! B = requests rl !! B
  /\ (allows B nowsB (allows A nowsA rl).2).1 = (allows B nowsB rl).1.
Proof.
  intros Hne. split; [|split].
  - intros now. by apply Allow_lookup_ne.
  - by apply allows_lookup_ne.
  - apply allows_entry_ext.
    + apply allows_limit.
    + apply allows_window.
    + by apply allows_lookup_ne.
Qed.

Lemma distinct_keys_independent_witness :
  (allows "B" [3; 4] (allows "A" [0; 1; 2] (NewRateLimiter 2 100)).2).1
  = (allows "B" [3; 4] (NewRateLimiter 2 100)).1.
Proof.
  refine (proj2 (proj2 (distinct_keys_independent "A" "B" (NewRateLimiter 2 100)
                          [0; 1; 2] [3; 4] _))).
  discriminate.
Defined.

(** C7.  After one [cleanup] pass at [now], every key still in the map has a
    non-empty sequence, namely the instants [t] of its old sequence with
    [now - t < window], and every key all of whose instants were stale is no
    longer in the map. *)
Theorem cleanup_leaves_live_entries (now : Z) (rl : RateLimiter) :
  Time.minDuration < window rl <= Time.maxDuration ->
  (forall k times,
      requests (cleanup now rl) !! k = Some times ->
      times <> []
      /\ Forall (fun t => now - t < window rl) times
      /\ exists old, requests rl !! k = Some old
           /\ times = List.filter (fun t => now - t <? window rl) old)
  /\ (forall k old,
      requests rl !! k = Some old ->
      List.filter (fun t => now - t <? window rl) old = [] ->
      requests (cleanup now rl) !! k = None).
Proof.
  intros Hw. split.
  - intros k times. rewrite cleanup_lookup.
    destruct (requests rl !! k) as [old|]; [simpl|done].
    intros [-> Hne]%pruned_entry_Some.
    split; [done|]. split.
    + apply Forall_forall. intros t [_ Ht]%elem_of_validTimes.
      apply Z.ltb_lt. rewrite <- (Sub_lt_iff now t (window rl)) by done.
      by apply Z.ltb_lt.
    + exists old. split; [done|]. by apply filter_validTimes.
  - intros k old E Hnil. rewrite cleanup_lookup, E. simpl.
    unfold pruned_entry. by rewrite filter_validTimes, Hnil.
Qed.

Lemma cleanup_leaves_live_entries_witness :
  requests (cleanup 150 (run [EvAllow "a" 0; EvAllow "b" 90] (NewRateLimiter 2 100))) !! "a"
  = None.
Proof.
  refine (proj2 (cleanup_leaves_live_entries 150
            (run [EvAllow "a" 0; EvAllow "b" 90] (NewRateLimiter 2 100)) _) "a" [0] _ _).
  - rewrite run_window. unfold Time.minDuration, Time.maxDuration. simpl. lia.
  - vm_compute. reflexivity.
  - reflexivity.
Defined.

(** C10.  For a key that is not in the map, [Allow] answers [true] and stores
    the one-element sequence [[now]], whatever the limit is: zero and
    negative limits included. *)
Theorem Allow_unseen_key (reqs : gmap string (list Z)) (lim win : Z)
    (key : string) (now : Z) :
  reqs !! key = None ->
  Allow key now (mkRateLimiter reqs lim win)
  = (true, mkRateLimiter (<[key := [now]]> reqs) lim win).
Proof. intros Hnone. unfold Allow; simpl. by rewrite Hnone. Qed.

Lemma Allow_unseen_key_witness :
  Allow "k" 7 (mkRateLimiter ∅ 0 Time.Minute)
  = (true, mkRateLimiter (<["k" := [7]]> ∅) 0 Time.Minute)
  /\ Allow "k" 7 (mkRateLimiter ∅ (-1) Time.Minute)
  = (true, mkRateLimiter (<["k" := [7]]> ∅) (-1) Time.Minute).
Proof.
  split.
  - apply (Allow_unseen_key ∅ 0 Time.Minute "k" 7). reflexivity.
  - apply (Allow_unseen_key ∅ (-1) Time.Minute "k" 7). reflexivity.
Defined.

(** *** Outside the construction contract

    The specification requires [limit >= 1].  With [limit = 0] the first call
    for a key is admitted by the fast path and every later call is refused
    without the entry being rewritten. *)

Example limit_zero_keeps_stale_entry :
  (allows "k" [0; 500] (NewRateLimiter 0 100)).1 = [true; false]
  /\ requests (allows "k" [0; 500] (NewRateLimiter 0 100)).2 !! "k" = Some [0].
Proof. vm_compute. split; reflexivity. Qed.

Example limit_zero_cleanup_observable :
  (Allow "k" 500 (run [EvAllow "k" 0] (NewRateLimiter 0 100))).1 = false
  /\ (Allow "k" 500 (cleanup 400 (run [EvAllow "k" 0] (NewRateLimiter 0 100)))).1 = true.
Proof. vm_compute. split; reflexivity. Qed.

(** A refused call does not write the filtered sequence back: on a map that
    holds more instants than the limit (which no execution produces when
    [limit >= 1]) the stale instant stays. *)
Example refused_call_leaves_entry :
  Allow "k" 150 (mkRateLimiter {[ "k" := [0; 100; 120] ]} 2 100)
  = (false, mkRateLimiter {[ "k" := [0; 100; 120] ]} 2 100).
Proof. vm_compute. reflexivity. Qed.

End SequentialClaims.

(** ** The specification's properties: the middleware *)

Section Middleware.

Context {Store : Type}.

(** Handlers at positions the index has already passed do not run. *)
Lemma run_handlers_passed (hs : list (HandlerFunc Store)) : forall pos s,
  pos + Z.of_nat (length hs) <= Gin.index (ctx s) ->
  run_handlers hs pos s = s.
Proof.
  induction hs as [|h hs IH]; intros pos s Hpos; [done|].
  simpl in *. destruct (Z.eqb_spec (Gin.index (ctx s)) pos); [lia|].
  apply IH. lia.
Qed.

Lemma run_handlers_at (h : HandlerFunc Store) (rest : list (HandlerFunc Store)) pos s :
  Gin.index (ctx s) = pos ->
  run_handlers (h :: rest) pos s
  = run_handlers rest (pos + 1)
      (with_ctx Gin.advance
         (h (fun s1 => run_handlers rest (pos + 1) (with_ctx Gin.advance s1)) s)).
Proof. intros Hpos. simpl. by rewrite (proj2 (Z.eqb_eq _ _) Hpos). Qed.

Lemma Allow_denied_same key now rl : (Allow key now rl).1 = false -> (Allow key now rl).2 = rl.
Proof.
  unfold Allow. destruct (requests rl !! key); [|done].
  by destruct (_ >=? _).
Qed.

(** C8.  The middleware stands at any position [pos] of a handler chain.
    When [Allow] refuses the client, it writes status 429 with the object
    [{"error": "Rate limit exceeded. Please try again later."}], aborts, and
    no handler that follows it in the chain runs: the outcome does not depend
    on those handlers, and the datastore is as it was.  When [Allow] admits
    the client, the middleware hands over to [c.Next()], and a business
    handler that follows it runs once, on the state with the call recorded. *)
Theorem RateLimitMiddleware_gate (now : Z) (pos : Z)
    (rest : list (HandlerFunc Store)) (s : Server Store) :
  Gin.index (ctx s) = pos ->
  pos + 1 + Z.of_nat (length rest) <= Gin.abortIndex ->
  ((Allow (Gin.ClientIP (ctx s)) now (limiter s)).1 = false ->
     run_handlers (RateLimitMiddleware now :: rest) pos s
     = {| limiter := limiter s;
          ctx := {| Gin.ClientIP := Gin.ClientIP (ctx s);
                    Gin.index := Gin.abortIndex + 1;
                    Gin.written := Gin.written (ctx s)
                      ++ [(429, {[ "error" := "Rate limit exceeded. Please try again later." ]})] |};
          store := store s |})
  /\ ((Allow (Gin.ClientIP (ctx s)) now (limiter s)).1 = true ->
      (forall next,
         RateLimitMiddleware now next s
         = next (with_limiter (Allow (Gin.ClientIP (ctx s)) now (limiter s)).2 s))
      /\ (forall body : Server Store -> Server Store,
         (forall x, Gin.index (ctx (body x)) = Gin.index (ctx x)) ->
         run_handlers [RateLimitMiddleware now; business body] pos s
         = with_ctx Gin.advance (with_ctx Gin.advance
             (body (with_ctx Gin.advance
                (with_limiter (Allow (Gin.ClientIP (ctx s)) now (limiter s)).2 s)))))).
Proof.
  intros Hidx Hlen. split.
  - intros Hdenied.
    rewrite run_handlers_at by done.
    unfold RateLimitMiddleware. simpl. rewrite Hdenied. simpl.
    rewrite (Allow_denied_same _ _ _ Hdenied).
    rewrite run_handlers_passed; [done|].
    simpl. unfold Gin.abortIndex in *. lia.
  - intros Hallowed. split.
    + intros next. unfold RateLimitMiddleware. by rewrite Hallowed.
    + intros body Hbody.
      rewrite run_handlers_at by done.
      unfold RateLimitMiddleware. simpl Gin.ClientIP. simpl limiter.
      rewrite Hallowed. simpl negb. cbv iota.
      simpl. rewrite Hidx, Z.eqb_refl. unfold business. simpl.
      rewrite Hbody. simpl. rewrite Hidx.
      by destruct (Z.eqb_spec (pos + 1 + 1 + 1) (pos + 1)); [lia|].
Qed.

End Middleware.

Lemma RateLimitMiddleware_gate_witness :
  Next [RateLimitMiddleware 5; business (fun s => mkServer (limiter s) (ctx s) (S (store s)))]
    throttled_request
  = {| limiter := limiter throttled_request;
       ctx := {| Gin.ClientIP := "1.2.3.4";
                 Gin.index := Gin.abortIndex + 1;
                 Gin.written :=
                   [(429, {[ "error" := "Rate limit exceeded. Please try again later." ]})] |};
       store := 0%nat |}.
Proof.
  refine (proj1 (RateLimitMiddleware_gate 5 0
            [business (fun s => mkServer (limiter s) (ctx s) (S (store s)))]
            (with_ctx Gin.advance throttled_request) _ _) _).
  - reflexivity.
  - unfold Gin.abortIndex. simpl. lia.
  - vm_compute. reflexivity.
Defined.

(** The end-to-end scenario of the specification: limit 3 per minute for
    registration; the client 1.2.3.4 registers three times within two seconds
    and tries a fourth time within the same minute. *)
Example registration_scenario :
  let r := serve_all register_ok
             [("1.2.3.4", 0); ("1.2.3.4", Time.Second); ("1.2.3.4", 2 * Time.Second);
              ("1.2.3.4", 30 * Time.Second)]
             (NewRateLimiter 3 Time.Minute) 0%nat in
  r.1 = [ [(201, {[ "message" := "created" ]})];
          [(201, {[ "message" := "created" ]})];
          [(201, {[ "message" := "created" ]})];
          [(429, {[ "error" := "Rate limit exceeded. Please try again later." ]})] ]
  /\ r.2.2 = 3%nat.
Proof. vm_compute. split; reflexivity. Qed.

(** ** The specification's properties: concurrent calls *)

Module ConcurrentFacts.
Import Concurrent.

Example race_2_of_3 :
  let c := execs [Run 2; Run 0; Run 2; Run 1; Run 2; Tick 5; Run 2; Run 2; Run 0;
                  Run 0; Run 1; Run 0; Run 0; Run 0; Run 0; Run 0; Run 0;
                  Run 1; Run 1; Run 1; Run 1; Run 1; Run 1; Run 1; Run 1; Run 1]
             (init (NewRateLimiter 2 100) 0 "k" 3) in
  (all_done c, count_returned true c, count_returned false c) = (true, 2%nat, 1%nat).
Proof. vm_compute. reflexivity. Qed.

(** *** Counting over the list of goroutines *)

Lemma filter_length_insert {A} (f : A -> bool) (l : list A) i x y :
  l !! i = Some x ->
  (length (List.filter f (<[i := y]> l)) + Nat.b2n (f x)
   = length (List.filter f l) + Nat.b2n (f y))%nat.
Proof.
  revert i. induction l as [|a l IH]; intros i Hi; [done|].
  destruct i as [|i]; simpl in *.
  - injection Hi as ->. destruct (f x), (f y); simpl; lia.
  - specialize (IH i Hi). destruct (f a); simpl; lia.
Qed.

Lemma filter_length_pos {A} (f : A -> bool) (l : list A) i x :
  l !! i = Some x -> f x = true -> (0 < length (List.filter f l))%nat.
Proof.
  revert i. induction l as [|a l IH]; intros i Hi Hf; [done|].
  destruct i as [|i]; simpl in *.
  - injection Hi as ->. rewrite Hf. simpl. lia.
  - specialize (IH i Hi Hf). destruct (f a); simpl; lia.
Qed.

Lemma filter_length_replicate {A} (f : A -> bool) (x : A) n :
  f x = false -> length (List.filter f (replicate n x)) = 0%nat.
Proof. intros Hf. induction n as [|n IH]; [done|]. simpl. by rewrite Hf. Qed.

Lemma lookup_moved (l : list (string * pc)) g x g' y :
  <[g := x]> l !! g' = Some y ->
  (g' = g /\ y = x) \/ (g' ≠ g /\ l !! g' = Some y).
Proof.
  intros Hl. destruct (decide (g' = g)) as [->|Hne].
  - left. split; [done|].
    destruct (decide (g < length l)%nat) as [Hlt|Hge].
    + rewrite list_lookup_insert_eq in Hl by done. congruence.
    + rewrite list_insert_ge in Hl by lia.
      apply lookup_lt_Some in Hl. lia.
  - right. split; [done|]. by rewrite list_lookup_insert_ne in Hl.
Qed.

(** *** The clock *)

Lemma step_goroutine_clock g key p c : clock (step_goroutine g key p c) = clock c.
Proof.
  destruct p as [| | | now [|t rest] valid | | | |]; simpl; try done.
  - by destruct (mu c).
  - by destruct (requests (shared c) !! key).
  - by destruct (_ >=? _).
Qed.

Lemma exec_clock a c : clock c <= clock (exec a c).
Proof.
  destruct a as [g|d]; simpl.
  - destruct (goroutines c !! g) as [[key p]|]; [|done].
    by rewrite step_goroutine_clock.
  - destruct (Z.leb_spec 0 d); simpl; lia.
Qed.

Lemma execs_clock sched : forall c, clock c <= clock (execs sched c).
Proof.
  induction sched as [|a sched IH]; intros c; [done|].
  simpl. pose proof (exec_clock a c). specialize (IH (exec a c)). lia.
Qed.

(** *** A goroutine that runs undisturbed executes [Allow] *)

Section Solo.

Variables (g : nat) (key : string).

Lemma move_move p1 h1 rl1 p2 h2 rl2 c :
  move g key p2 h2 rl2 (move g key p1 h1 rl1 c) = move g key p2 h2 rl2 c.
Proof. unfold move; simpl. by rewrite list_insert_insert_eq. Qed.

Lemma exec_moved p h rl c :
  (g < length (goroutines c))%nat ->
  exec (Run g) (move g key p h rl c)
  = step_goroutine g key p (move g key p h rl c).
Proof. intros Hg. simpl. by rewrite list_lookup_insert_eq. Qed.

Lemma solo_S n c : solo g (S n) c = solo g n (exec (Run g) c).
Proof. done. Qed.

Lemma solo_return b h rl c :
  (g < length (goroutines c))%nat ->
  solo g 1 (move g key (PReturn b) h rl c) = move g key (PDone b) None rl c.
Proof.
  intros Hg. rewrite solo_S, exec_moved by done. simpl solo.
  unfold step_goroutine. by rewrite move_move.
Qed.

Lemma solo_check now valid h rl c :
  (g < length (goroutines c))%nat ->
  exists n, solo g n (move g key (PCheck now valid) h rl c)
            = move g key (PDone (check_and_store key now valid rl).1) None
                (check_and_store key now valid rl).2 c.
Proof.
  intros Hg. unfold check_and_store.
  destruct (Z.of_nat (length valid) >=? limit rl) eqn:E.
  - exists 2%nat. rewrite solo_S, exec_moved by done.
    unfold step_goroutine. simpl shared. rewrite E, move_move.
    by rewrite solo_return.
  - exists 3%nat. rewrite solo_S, exec_moved by done.
    unfold step_goroutine. simpl shared. rewrite E, move_move.
    rewrite solo_S, exec_moved by done.
    unfold step_goroutine. simpl shared. rewrite move_move.
    by rewrite solo_return.
Qed.

Lemma solo_filter now rest : forall valid h rl c,
  (g < length (goroutines c))%nat ->
  exists n, solo g n (move g key (PFilter now rest valid) h rl c)
            = move g key (PCheck now
                (fold_left (fun acc t => if Time.Sub now t <? window rl
                                         then acc ++ [t] else acc) rest valid))
                h rl c.
Proof.
  induction rest as [|t rest IH]; intros valid h rl c Hg.
  - exists 1%nat. rewrite solo_S, exec_moved by done.
    unfold step_goroutine. simpl shared. simpl mu. by rewrite move_move.
  - destruct (IH (if Time.Sub now t <? window rl then valid ++ [t] else valid)
                h rl c Hg) as [n Hn].
    exists (S n). rewrite solo_S, exec_moved by done.
    unfold step_goroutine. simpl shared. simpl mu. rewrite move_move.
    by rewrite Hn.
Qed.

Lemma solo_app n m c : solo g (n + m) c = solo g m (solo g n c).
Proof. revert c. induction n as [|n IH]; intros c; [done|]. simpl. apply IH. Qed.

(** From [Lock] to [Unlock], a goroutine that no other goroutine interrupts
    turns the shared limiter into what [Allow] returns for the instant on the
    clock, and returns [Allow]'s answer. *)
Lemma solo_Allow c :
  goroutines c !! g = Some (key, PStart) ->
  mu c = None ->
  exists n, solo g n c
            = move g key (PDone (Allow key (clock c) (shared c)).1) None
                (Allow key (clock c) (shared c)).2 c.
Proof.
  intros Hg Hmu.
  assert (Hlt : (g < length (goroutines c))%nat) by by eapply lookup_lt_Some.
  assert (H1 : exec (Run g) c = move g key PLocked (Some g) (shared c) c).
  { simpl. rewrite Hg. simpl. by rewrite Hmu. }
  assert (H2 : exec (Run g) (move g key PLocked (Some g) (shared c) c)
               = move g key (PLookup (clock c)) (Some g) (shared c) c).
  { rewrite exec_moved by done. unfold step_goroutine. by rewrite move_move. }
  unfold Allow.
  destruct (requests (shared c) !! key) as [times|] eqn:E.
  - destruct (solo_filter (clock c) times [] (Some g) (shared c) c Hlt) as [n1 Hn1].
    destruct (solo_check (clock c) (validTimes (clock c) (window (shared c)) times)
                (Some g) (shared c) c Hlt) as [n2 Hn2].
    exists (S (S (S (n1 + n2)))).
    rewrite solo_S, H1, solo_S, H2, solo_S, exec_moved by done.
    unfold step_goroutine at 1. simpl shared. rewrite E. simpl mu.
    rewrite move_move, solo_app, Hn1. fold (validTimes (clock c) (window (shared c)) times).
    rewrite Hn2. unfold check_and_store.
    by destruct (_ >=? _).
  - exists 4%nat.
    rewrite solo_S, H1, solo_S, H2, solo_S, exec_moved by done.
    unfold step_goroutine at 1. simpl shared. rewrite E. simpl mu.
    rewrite move_move. by rewrite solo_return.
Qed.

End Solo.

(** *** The invariant *)

Section Invariant.

Variables (k : string) (L W t0 : Z).
Hypothesis HL : 1 <= L.
Hypothesis HW : 0 < W <= Time.maxDuration.

Lemma local_ok_outside c p : in_cs p = false -> local_ok k L t0 c p.
Proof. by destruct p. Qed.

Lemma Inv_init n : Inv k L W t0 (init (NewRateLimiter L W) t0 k n).
Proof.
  assert (Hfresh : history (NewRateLimiter L W) k = []).
  { unfold history; simpl. by rewrite lookup_empty. }
  split; simpl; rewrite ?Hfresh; simpl; try done.
  - lia.
  - intros g key p [[= -> ->] _]%lookup_replicate. done.
  - intros g key p [[= -> ->] _]%lookup_replicate. done.
  - by rewrite filter_length_replicate.
  - lia.
  - rewrite filter_length_replicate by done. lia.
  - intros g key p [[= -> ->] _]%lookup_replicate. done.
Qed.

(** While one goroutine holds the lock, or while the lock is free, every
    other goroutine is outside [Allow]'s critical section. *)
Lemma others_outside c g p :
  Inv k L W t0 c ->
  goroutines c !! g = Some (k, p) ->
  in_cs p = true \/ mu c = None ->
  forall g' key p', g' ≠ g -> goroutines c !! g' = Some (key, p') -> in_cs p' = false.
Proof.
  intros HI Hg Hcs g' key p' Hne Hg'.
  destruct (in_cs p') eqn:E; [|done].
  pose proof (inv_mutex _ _ _ _ _ HI g' key p' Hg' E) as Hmu.
  destruct Hcs as [Hcs|Hfree]; [|congruence].
  pose proof (inv_mutex _ _ _ _ _ HI g k p Hg Hcs). congruence.
Qed.

(** One statement of goroutine [g] keeps the invariant, provided it keeps
    what the invariant says about the entry of [k]. *)
Lemma Inv_move c g p p' holder rl :
  Inv k L W t0 c ->
  goroutines c !! g = Some (k, p) ->
  in_cs p = true \/ mu c = None ->
  holder = (if in_cs p' then Some g else None) ->
  limit rl = L ->
  window rl = W ->
  Forall (fun t => t0 <= t <= clock c) (history rl k) ->
  (length (history rl k) + Nat.b2n (admitted (k, p))
   = length (history (shared c) k) + Nat.b2n (admitted (k, p')))%nat ->
  (length (history (shared c) k) <= length (history rl k))%nat ->
  Z.of_nat (length (history rl k)) <= L ->
  (denied (k, p') = true -> Z.of_nat (length (history rl k)) = L) ->
  local_ok k L t0 (move g k p' holder rl c) p' ->
  Inv k L W t0 (move g k p' holder rl c).
Proof.
  intros HI Hg Hcs -> Hlim Hwin Hhist Hcount Hle Hbound Hden Hloc.
  pose proof (others_outside c g p HI Hg Hcs) as Hothers.
  split; simpl; try done.
  - apply HI.
  - intros g' key q [[-> [= -> ->]]|[Hne Hq]]%lookup_moved; [done|].
    by eapply inv_keys.
  - intros g' key q [[-> [= -> ->]]|[Hne Hq]]%lookup_moved Hq'.
    + by rewrite Hq'.
    + rewrite (Hothers g' key q Hne Hq) in Hq'. done.
  - intros g'. destruct (in_cs p') eqn:E; [|done].
    intros [= <-]. exists k, p'. split; [|done].
    apply list_lookup_insert_eq. by eapply lookup_lt_Some.
  - pose proof (filter_length_insert admitted (goroutines c) g (k, p) (k, p') Hg).
    pose proof (inv_count _ _ _ _ _ HI). lia.
  - intros Hpos.
    destruct (denied (k, p')) eqn:E; [by apply Hden|].
    pose proof (filter_length_insert denied (goroutines c) g (k, p) (k, p') Hg) as Hf.
    rewrite E in Hf. simpl in Hf.
    assert (Hold : (0 < length (List.filter denied (goroutines c)))%nat) by lia.
    pose proof (inv_denied _ _ _ _ _ HI Hold). lia.
  - intros g' key q [[-> [= -> ->]]|[Hne Hq]]%lookup_moved; [done|].
    apply local_ok_outside. by eapply Hothers.
Qed.

Local Ltac side := simpl; auto; try done; try lia.

Lemma history_stored key times rl :
  history (set_requests (<[key := times]> (requests rl)) rl) key = times.
Proof. unfold history; simpl. by rewrite lookup_insert_eq. Qed.

Lemma Inv_step_goroutine c g p :
  Inv k L W t0 c ->
  goroutines c !! g = Some (k, p) ->
  Inv k L W t0 (step_goroutine g k p c).
Proof.
  intros HI Hg.
  pose proof (inv_limit _ _ _ _ _ HI) as Hlim.
  pose proof (inv_window _ _ _ _ _ HI) as Hwin.
  pose proof (inv_clock _ _ _ _ _ HI) as Hclock.
  pose proof (inv_hist _ _ _ _ _ HI) as Hhist.
  pose proof (inv_bound _ _ _ _ _ HI) as Hbound.
  pose proof (inv_local _ _ _ _ _ HI g k p Hg) as Hloc.
  assert (Hmu : in_cs p = true -> mu c = Some g)
    by (intros Hcs; by eapply inv_mutex).
  destruct p as [| | now | now [|t rest] valid | now valid | now valid | b | b];
    simpl in *.
  - (* Lock *)
    destruct (mu c) eqn:Emu; [done|].
    apply (Inv_move c g PStart); side.
  - (* now := time.Now() *)
    rewrite Hmu by done.
    apply (Inv_move c g PLocked); side.
  - (* times, exists := rl.requests[key] *)
    rewrite Hmu by done.
    destruct (requests (shared c) !! k) as [times|] eqn:E.
    + apply (Inv_move c g (PLookup now)); side.
    + assert (Hnil : history (shared c) k = []) by by apply history_None.
      apply (Inv_move c g (PLookup now));
        rewrite ?history_stored, ?Hnil; side.
  - (* the filter loop is over *)
    rewrite Hmu by done. destruct Hloc as [Hnow Hreq].
    rewrite app_nil_r in Hreq.
    apply (Inv_move c g (PFilter now [] valid)); side.
  - (* one round of the filter loop *)
    rewrite Hmu by done. destruct Hloc as [Hnow Hreq].
    assert (Ht : t0 <= t <= clock c).
    { rewrite (history_Some _ _ _ Hreq) in Hhist.
      apply Forall_app in Hhist as [_ Hhist].
      by apply Forall_cons in Hhist as [Ht _]. }
    rewrite Hwin, Sub_lt_iff by (unfold Time.minDuration; lia).
    destruct (Z.ltb_spec (now - t) W); [|lia].
    apply (Inv_move c g (PFilter now (t :: rest) valid)); side.
    split; [done|]. by rewrite <- app_assoc.
  - (* if len(validTimes) >= rl.limit *)
    rewrite Hmu by done. destruct Hloc as [Hnow Hreq].
    assert (Hh := history_Some _ _ _ Hreq).
    pose proof Hhist as Hvalid.
    rewrite Hh in Hbound, Hvalid. rewrite Hlim.
    destruct (Z.geb_spec (Z.of_nat (length valid)) L).
    + apply (Inv_move c g (PCheck now valid)); rewrite ?Hh; side.
    + apply (Inv_move c g (PCheck now valid)); rewrite ?Hh; side.
  - (* append and store *)
    rewrite Hmu by done. destruct Hloc as (Hnow & Hreq & Hlt).
    assert (Hh := history_Some _ _ _ Hreq).
    rewrite Hh in Hhist.
    apply (Inv_move c g (PStore now valid));
      rewrite ?history_stored, ?Hh, ?length_app; side.
    apply Forall_app. split; [done|]. apply Forall_singleton. lia.
  - (* the deferred Unlock *)
    apply (Inv_move c g (PReturn b)); side.
    destruct b; [done|]. intros _.
    apply (inv_denied _ _ _ _ _ HI).
    by apply (filter_length_pos denied _ g (k, PReturn false)).
  - done.
Qed.

Lemma Inv_exec a c :
  Inv k L W t0 c ->
  clock (exec a c) < t0 + W ->
  Inv k L W t0 (exec a c).
Proof.
  intros HI Hlate. destruct a as [g|d]; simpl in *.
  - destruct (goroutines c !! g) as [[key p]|] eqn:Hg; [|done].
    pose proof (inv_keys _ _ _ _ _ HI g key p Hg) as ->.
    by apply Inv_step_goroutine.
  - destruct (Z.leb_spec 0 d); [|done]. simpl in *.
    destruct HI as [? ? ? ? ? ? Hhist ? ? ? Hloc].
    split; simpl; try done.
    + lia.
    + eapply Forall_impl; [exact Hhist|]. simpl. intros; lia.
    + intros g key p Hg. specialize (Hloc g key p Hg).
      destruct p; simpl in *; try done; intuition lia.
Qed.

Lemma Inv_execs sched : forall c,
  Inv k L W t0 c ->
  clock (execs sched c) < t0 + W ->
  Inv k L W t0 (execs sched c).
Proof.
  induction sched as [|a sched IH]; intros c HI Hlate; [done|].
  simpl in *. apply IH; [|done].
  apply Inv_exec; [done|].
  pose proof (execs_clock sched (exec a c)). lia.
Qed.

(** Once every goroutine has returned, the answers are counted by the
    invariant. *)
Lemma done_counts (gs : list (string * pc)) :
  forallb is_done gs = true ->
  length (List.filter (returned true) gs) = length (List.filter admitted gs)
  /\ length (List.filter (returned false) gs) = length (List.filter denied gs)
  /\ (length (List.filter admitted gs) + length (List.filter denied gs))%nat
     = length gs.
Proof.
  induction gs as [|[key p] gs IH]; [done|].
  simpl. intros [Hp Hgs]%andb_prop. specialize (IH Hgs).
  destruct p as [| | | | | | |[|]]; try done; simpl; lia.
Qed.

(** *** No deadlock: the calls can always be brought to an end *)

Lemma sum_list_with_insert {A} (f : A -> nat) (l : list A) i x y :
  l !! i = Some x ->
  (sum_list_with f (<[i := y]> l) + f x = sum_list_with f l + f y)%nat.
Proof.
  revert i. induction l as [|a l IH]; intros i Hi; [done|].
  destruct i as [|i]; simpl in *.
  - injection Hi as ->. lia.
  - specialize (IH i Hi). lia.
Qed.

Lemma total_remaining_move c g p p' holder rl :
  goroutines c !! g = Some (k, p) ->
  (remaining (Z.to_nat L) p' < remaining (Z.to_nat L) p)%nat ->
  (total_remaining (Z.to_nat L) (move g k p' holder rl c)
   < total_remaining (Z.to_nat L) c)%nat.
Proof.
  intros Hg Hlt. unfold total_remaining. simpl.
  pose proof (sum_list_with_insert (fun g : string * pc => remaining (Z.to_nat L) g.2)
                (goroutines c) g (k, p) (k, p') Hg) as Hs.
  simpl in Hs. lia.
Qed.

(** A goroutine that holds the lock, or that waits for a free lock, has a
    statement to execute, and executing it brings the end nearer. *)
Lemma step_goroutine_decreases c g p :
  Inv k L W t0 c ->
  goroutines c !! g = Some (k, p) ->
  in_cs p = true \/ (p = PStart /\ mu c = None) ->
  (total_remaining (Z.to_nat L) (step_goroutine g k p c)
   < total_remaining (Z.to_nat L) c)%nat.
Proof.
  intros HI Hg Hen.
  pose proof (inv_bound _ _ _ _ _ HI) as Hbound.
  destruct p as [| | now | now [|t rest] valid | now valid | now valid | b | b];
    simpl in *.
  - destruct Hen as [?|[_ ->]]; [done|].
    apply (total_remaining_move c g PStart); [done | simpl; lia].
  - apply (total_remaining_move c g PLocked); [done | simpl; lia].
  - destruct (requests (shared c) !! k) as [times|] eqn:E.
    + rewrite (history_Some _ _ _ E) in Hbound.
      apply (total_remaining_move c g (PLookup now)); [done | simpl; lia].
    + apply (total_remaining_move c g (PLookup now)); [done | simpl; lia].
  - apply (total_remaining_move c g (PFilter now [] valid)); [done | simpl; lia].
  - apply (total_remaining_move c g (PFilter now (t :: rest) valid)); [done | simpl; lia].
  - destruct (_ >=? _);
      apply (total_remaining_move c g (PCheck now valid)); try done; simpl; lia.
  - apply (total_remaining_move c g (PStore now valid)); [done | simpl; lia].
  - apply (total_remaining_move c g (PReturn b)); [done | simpl; lia].
  - by destruct Hen as [?|[? _]].
Qed.

Lemma not_all_done (gs : list (string * pc)) :
  forallb is_done gs = false ->
  exists g key p, gs !! g = Some (key, p) /\ is_done (key, p) = false.
Proof.
  induction gs as [|[key p] gs IH]; [done|].
  simpl. destruct (is_done (key, p)) eqn:E; simpl.
  - intros (g & key' & p' & Hg & Hp)%IH. by exists (S g), key', p'.
  - intros _. by exists 0%nat, key, p.
Qed.

Lemma progress c :
  Inv k L W t0 c ->
  all_done c = false ->
  exists g, (total_remaining (Z.to_nat L) (exec (Run g) c)
             < total_remaining (Z.to_nat L) c)%nat.
Proof.
  intros HI Hnot. destruct (mu c) as [g|] eqn:Emu.
  - destruct (inv_holder _ _ _ _ _ HI g Emu) as (key & p & Hg & Hcs).
    pose proof (inv_keys _ _ _ _ _ HI g key p Hg) as ->.
    exists g. simpl. rewrite Hg.
    apply step_goroutine_decreases; auto.
  - destruct (not_all_done _ Hnot) as (g & key & p & Hg & Hp).
    pose proof (inv_keys _ _ _ _ _ HI g key p Hg) as ->.
    exists g. simpl. rewrite Hg.
    apply step_goroutine_decreases; [done|done|].
    right. split; [|done].
    destruct (in_cs p) eqn:Ecs.
    + pose proof (inv_mutex _ _ _ _ _ HI g k p Hg Ecs). congruence.
    + by destruct p.
Qed.

(** From any state the invariant allows, some schedule lets every goroutine
    return, without the clock having to move. *)
Lemma completes (m : nat) : forall c,
  (total_remaining (Z.to_nat L) c <= m)%nat ->
  Inv k L W t0 c ->
  exists sched, all_done (execs sched c) = true
                /\ clock (execs sched c) = clock c.
Proof.
  induction m as [|m IH]; intros c Hm HI.
  - destruct (all_done c) eqn:E; [by exists []|].
    destruct (progress c HI E) as [g Hg]. lia.
  - destruct (all_done c) eqn:E; [by exists []|].
    destruct (progress c HI E) as [g Hg].
    assert (Hclock : clock (exec (Run g) c) = clock c).
    { simpl. destruct (goroutines c !! g) as [[key p]|]; [|done].
      apply step_goroutine_clock. }
    destruct (IH (exec (Run g) c)) as (sched & Hdone & Hsame).
    + lia.
    + apply Inv_exec; [done|]. rewrite Hclock. apply HI.
    + exists (Run g :: sched).
      change (execs (Run g :: sched) c) with (execs sched (exec (Run g) c)).
      split; [exact Hdone | by rewrite Hsame].
Qed.

End Invariant.

Lemma execs_app sched1 sched2 c :
  execs (sched1 ++ sched2) c = execs sched2 (execs sched1 c).
Proof. revert c. induction sched1 as [|a sched1 IH]; intros c; [done|]. apply IH. Qed.

(** X21.  However the goroutines were interleaved so far, the calls can all
    be brought to return inside the window: no interleaving ends in a
    deadlock. *)
Lemma any_prefix_completes (L W t0 : Z) (k : string) (N : nat) (sched : list action) :
  1 <= L ->
  0 < W <= Time.maxDuration ->
  clock (execs sched (init (NewRateLimiter L W) t0 k N)) < t0 + W ->
  exists more,
    all_done (execs (sched ++ more) (init (NewRateLimiter L W) t0 k N)) = true
    /\ clock (execs (sched ++ more) (init (NewRateLimiter L W) t0 k N))
       = clock (execs sched (init (NewRateLimiter L W) t0 k N)).
Proof.
  intros HL HW Hclock.
  assert (HI : Inv k L W t0 (execs sched (init (NewRateLimiter L W) t0 k N))).
  { apply Inv_execs; try done. by apply Inv_init. }
  destruct (completes k L W t0 HL HW _ _ (Nat.le_refl _) HI) as (more & Hdone & Hsame).
  exists more. by rewrite execs_app.
Qed.

Lemma exec_goroutines_length a c :
  length (goroutines (exec a c)) = length (goroutines c).
Proof.
  destruct a as [g|d]; simpl.
  - destruct (goroutines c !! g) as [[key p]|]; [|done].
    destruct p as [| | | now [|t rest] valid | | | |]; simpl;
      rewrite ?length_insert; try done.
    + destruct (mu c); simpl; by rewrite ?length_insert.
    + destruct (requests (shared c) !! key); simpl; by rewrite ?length_insert.
    + destruct (_ >=? _); simpl; by rewrite ?length_insert.
  - by destruct (0 <=? d).
Qed.

Lemma execs_goroutines_length sched : forall c,
  length (goroutines (execs sched c)) = length (goroutines c).
Proof.
  induction sched as [|a sched IH]; intros c; [done|].
  simpl. by rewrite IH, exec_goroutines_length.
Qed.

(** C9.  [N > L] goroutines call [Allow k] on a fresh limiter, one statement
    at a time in whatever order the scheduler picks, [rl.mu] being held from
    [Lock] to [Unlock], while the clock stays inside one window.  Once all of
    them have returned, exactly [L] have been answered [true] and [N - L]
    have been answered [false]. *)
Theorem concurrent_Allow_exact_quota (L W t0 : Z) (k : string) (N : nat)
    (sched : list action) :
  1 <= L ->
  0 < W <= Time.maxDuration ->
  L < Z.of_nat N ->
  clock (execs sched (init (NewRateLimiter L W) t0 k N)) < t0 + W ->
  all_done (execs sched (init (NewRateLimiter L W) t0 k N)) = true ->
  count_returned true (execs sched (init (NewRateLimiter L W) t0 k N)) = Z.to_nat L
  /\ count_returned false (execs sched (init (NewRateLimiter L W) t0 k N))
     = (N - Z.to_nat L)%nat.
Proof.
  intros HL HW HN Hclock Hdone.
  assert (HI : Inv k L W t0 (execs sched (init (NewRateLimiter L W) t0 k N))).
  { apply Inv_execs; try done. by apply Inv_init. }
  pose proof (execs_goroutines_length sched (init (NewRateLimiter L W) t0 k N)) as Hlen.
  simpl in Hlen. rewrite length_replicate in Hlen.
  set (c := execs sched (init (NewRateLimiter L W) t0 k N)) in *.
  destruct (done_counts (goroutines c) Hdone) as (Htrue & Hfalse & Hsum).
  unfold count_returned. rewrite Htrue, Hfalse.
  pose proof (inv_count _ _ _ _ _ HI) as Hcount.
  pose proof (inv_bound _ _ _ _ _ HI) as Hbound.
  pose proof (inv_denied _ _ _ _ _ HI) as Hdenied.
  assert (Hpos : (0 < length (List.filter denied (goroutines c)))%nat) by lia.
  specialize (Hdenied Hpos). lia.
Qed.

Lemma concurrent_Allow_exact_quota_witness :
  count_returned true
    (execs [Run 1; Run 0; Run 1; Tick 3; Run 1; Run 0; Run 1; Run 0; Run 0;
            Run 0; Run 0; Run 0; Run 0; Run 0]
       (init (NewRateLimiter 1 100) 0 "k" 2)) = Z.to_nat 1
  /\ count_returned false
    (execs [Run 1; Run 0; Run 1; Tick 3; Run 1; Run 0; Run 1; Run 0; Run 0;
            Run 0; Run 0; Run 0; Run 0; Run 0]
       (init (NewRateLimiter 1 100) 0 "k" 2)) = (2 - Z.to_nat 1)%nat.
Proof.
  apply (concurrent_Allow_exact_quota 1 100 0 "k" 2
           [Run 1; Run 0; Run 1; Tick 3; Run 1; Run 0; Run 1; Run 0; Run 0;
            Run 0; Run 0; Run 0; Run 0; Run 0]).
  - lia.
  - unfold Time.maxDuration. lia.
  - lia.
  - vm_compute. reflexivity.
  - vm_compute. reflexivity.
Defined.

End ConcurrentFacts.

(** ** Further properties of the limiter *)

Section Window.

Lemma recent_app now win l1 l2 :
  recent now win (l1 ++ l2) = recent now win l1 ++ recent now win l2.
Proof. apply List.filter_app. Qed.

Lemma recent_validTimes now win times :
  Time.minDuration < win <= Time.maxDuration ->
  validTimes now win times = recent now win times.
Proof. apply filter_validTimes. Qed.

Lemma recent_later t t' win l :
  t <= t' -> recent t' win (recent t win l) = recent t' win l.
Proof.
  intros Hle. unfold recent. induction l as [|u l IH]; [done|]. simpl.
  destruct (Z.ltb_spec (t - u) win); simpl; rewrite IH; [done|].
  by destruct (Z.ltb_spec (t' - u) win); [lia|].
Qed.

Lemma recent_all now win l :
  Forall (fun u => now - u < win) l -> recent now win l = l.
Proof.
  induction 1 as [|u l Hu _ IH]; [done|]. unfold recent in *. simpl.
  rewrite IH. by destruct (Z.ltb_spec (now - u) win); [|lia].
Qed.

(** The instants of a span that ends by [now] and is shorter than the
    window are all recent at [now]. *)
Lemma span_recent s win now log :
  Forall (fun u => u <= now) log ->
  now < s + win ->
  (length (List.filter (in_span s win) log) <= length (recent now win log))%nat.
Proof.
  intros Hlog Hnow. unfold recent, in_span.
  induction Hlog as [|u log Hu _ IH]; [done|]. simpl.
  destruct (Z.leb_spec s u); simpl.
  - destruct (Z.ltb_spec (now - u) win); [|lia].
    destruct (u <? s + win); simpl; lia.
  - destruct (now - u <? win); simpl; lia.
Qed.

Lemma tracks_later k t t' rl log :
  t <= t' -> tracks k t rl log -> tracks k t' rl log.
Proof.
  intros Hle [Hview Hlog]. split.
  - rewrite <- (recent_later t t' _ (history rl k)), Hview by done.
    by apply recent_later.
  - eapply Forall_impl; [exact Hlog|]. simpl. intros; lia.
Qed.

Lemma tracks_cleanup k now rl log :
  Time.minDuration < window rl <= Time.maxDuration ->
  tracks k now rl log -> tracks k now (cleanup now rl) log.
Proof.
  intros Hw [Hview Hlog]. split; [|done].
  rewrite history_cleanup, cleanup_window, recent_validTimes by done.
  rewrite recent_later by lia. done.
Qed.

(** What [Allow] answers, and what it leaves, in terms of the log. *)
Lemma tracks_Allow k now rl log :
  1 <= limit rl ->
  0 < window rl <= Time.maxDuration ->
  tracks k now rl log ->
  (Allow k now rl).1
  = (Z.of_nat (length (recent now (window rl) log)) <? limit rl)
  /\ tracks k now (Allow k now rl).2
       (log ++ if (Allow k now rl).1 then [now] else []).
Proof.
  intros Hl Hw [Hview Hlog].
  assert (Hr : Time.minDuration < window rl <= Time.maxDuration)
    by (unfold Time.minDuration; lia).
  destruct (Allow_by_history k now rl Hl) as [Hres Hhist].
  rewrite (recent_validTimes now (window rl)) in Hres by done.
  rewrite !(recent_validTimes now (window rl)) in Hhist by done.
  rewrite Hview in Hres, Hhist.
  split.
  - rewrite Hres. rewrite Z.geb_leb.
    by destruct (Z.leb_spec (limit rl) (Z.of_nat (length (recent now (window rl) log))));
      destruct (Z.ltb_spec (Z.of_nat (length (recent now (window rl) log))) (limit rl));
      try lia.
  - split.
    + rewrite Allow_window, Hhist, !recent_app, recent_later by lia. done.
    + apply Forall_app. split; [done|].
      destruct (Allow k now rl).1; [apply Forall_singleton; lia | apply Forall_nil_2].
Qed.

Lemma tracks_Allow_other k k' now rl log :
  k' ≠ k -> tracks k now rl log -> tracks k now (Allow k' now rl).2 log.
Proof.
  intros Hne [Hview Hlog]. split; [|done].
  rewrite Allow_window. unfold history.
  rewrite Allow_lookup_ne by done. exact Hview.
Qed.

Lemma sparse_snoc L W now log :
  Forall (fun u => u <= now) log ->
  Z.of_nat (length (recent now W log)) < L ->
  sparse L W log -> sparse L W (log ++ [now]).
Proof.
  intros Hlog Hroom Hsp s.
  rewrite List.filter_app, length_app. simpl.
  destruct (in_span s W now) eqn:E; simpl.
  - unfold in_span in E. apply andb_prop in E as [_ E%Z.ltb_lt].
    pose proof (span_recent s W now log Hlog E). lia.
  - specialize (Hsp s). lia.
Qed.

Lemma admitted_at_sparse k evs : forall t rl log,
  1 <= limit rl ->
  0 < window rl <= Time.maxDuration ->
  monotone_from t evs ->
  tracks k t rl log ->
  sparse (limit rl) (window rl) log ->
  tracks k (last_time t evs) (run evs rl) (log ++ admitted_at k evs rl)
  /\ sparse (limit rl) (window rl) (log ++ admitted_at k evs rl).
Proof.
  assert (Hr : forall w, 0 < w <= Time.maxDuration ->
                         Time.minDuration < w <= Time.maxDuration)
    by (unfold Time.minDuration; lia).
  induction evs as [|e evs IH]; intros t rl log Hl Hw Hmono Htr Hsp.
  { simpl. by rewrite app_nil_r. }
  destruct Hmono as [Hle Hmono].
  apply (tracks_later k t (event_time e)) in Htr; [|done].
  destruct e as [k' now|now]; simpl in *.
  - destruct (decide (k' = k)) as [->|Hne].
    + destruct (tracks_Allow k now rl log Hl Hw Htr) as [Hres Htr'].
      rewrite app_assoc.
      specialize (IH now (Allow k now rl).2
                    (log ++ if (Allow k now rl).1 then [now] else [])).
      rewrite Allow_limit, Allow_window in IH.
      apply IH; try done.
      destruct (Allow k now rl).1; [|by rewrite app_nil_r].
      apply sparse_snoc; [apply Htr | | done].
      symmetry in Hres. by apply Z.ltb_lt in Hres.
    + specialize (IH now (Allow k' now rl).2 log).
      rewrite Allow_limit, Allow_window in IH.
      apply IH; try done. by apply tracks_Allow_other.
  - specialize (IH now (cleanup now rl) log).
    rewrite cleanup_limit, cleanup_window in IH.
    apply IH; try done. apply tracks_cleanup; auto.
Qed.

Lemma tracks_New k t L W : tracks k t (NewRateLimiter L W) [].
Proof.
  split; [|apply Forall_nil_2].
  unfold history; simpl. by rewrite lookup_empty.
Qed.

(** X1.  In an execution that starts from a fresh limiter (limit at least 1,
    positive window) and reads a clock that does not go backwards, no span of
    time shorter than the window contains more than [limit] admitted calls
    of one key. *)
Theorem admitted_calls_sparse (L W t0 : Z) (evs : list event) (k : string) (s : Z) :
  1 <= L ->
  0 < W <= Time.maxDuration ->
  monotone_from t0 evs ->
  Z.of_nat (length (List.filter (in_span s W) (admitted_at k evs (NewRateLimiter L W))))
  <= L.
Proof.
  intros HL HW Hmono.
  destruct (admitted_at_sparse k evs t0 (NewRateLimiter L W) [] HL HW Hmono
              (tracks_New k t0 L W)) as [_ Hsp].
  - intros s'. simpl. lia.
  - apply Hsp.
Qed.

Lemma admitted_calls_sparse_witness :
  Z.of_nat (length (List.filter (in_span 40 100)
    (admitted_at "k"
       [EvAllow "k" 0; EvAllow "k" 50; EvAllow "j" 60; EvAllow "k" 70; EvCleanup 90;
        EvAllow "k" 100; EvAllow "k" 120; EvAllow "k" 150]
       (NewRateLimiter 2 100)))) <= 2.
Proof.
  apply (admitted_calls_sparse 2 100 0
           [EvAllow "k" 0; EvAllow "k" 50; EvAllow "j" 60; EvAllow "k" 70; EvCleanup 90;
            EvAllow "k" 100; EvAllow "k" 120; EvAllow "k" 150] "k" 40).
  - lia.
  - unfold Time.maxDuration. lia.
  - simpl. lia.
Defined.

(** X2.  In such an execution, [Allow k] at [now] answers [true] exactly when
    fewer than [limit] calls of [k] were admitted less than [window] ago. *)
Theorem Allow_admits_iff_room (L W t0 : Z) (evs : list event) (k : string) (now : Z) :
  1 <= L ->
  0 < W <= Time.maxDuration ->
  monotone_from t0 evs ->
  last_time t0 evs <= now ->
  (Allow k now (run evs (NewRateLimiter L W))).1
  = (Z.of_nat (length (recent now W (admitted_at k evs (NewRateLimiter L W)))) <? L).
Proof.
  intros HL HW Hmono Hlast.
  destruct (admitted_at_sparse k evs t0 (NewRateLimiter L W) [] HL HW Hmono
              (tracks_New k t0 L W)) as [Htr _].
  { intros s'. simpl. lia. }
  simpl in Htr.
  apply (tracks_later k _ now) in Htr; [|done].
  destruct (tracks_Allow k now (run evs (NewRateLimiter L W))
              (admitted_at k evs (NewRateLimiter L W))) as [Hres _];
    rewrite ?run_limit, ?run_window; try done.
  by rewrite Hres, run_limit, run_window.
Qed.

Lemma Allow_admits_iff_room_witness :
  (Allow "k" 120 (run [EvAllow "k" 0; EvAllow "k" 50; EvAllow "k" 70]
                    (NewRateLimiter 2 100))).1
  = (Z.of_nat (length (recent 120 100
       (admitted_at "k" [EvAllow "k" 0; EvAllow "k" 50; EvAllow "k" 70]
          (NewRateLimiter 2 100)))) <? 2).
Proof.
  apply (Allow_admits_iff_room 2 100 0
           [EvAllow "k" 0; EvAllow "k" 50; EvAllow "k" 70] "k" 120).
  - lia.
  - unfold Time.maxDuration. lia.
  - simpl. lia.
  - simpl. lia.
Defined.

End Window.

Section Shape.

Lemma validTimes_suffix now win times :
  Time.minDuration < win <= Time.maxDuration ->
  StronglySorted Z.le times ->
  validTimes now win times `suffix_of` times.
Proof.
  intros Hw. induction 1 as [|u times Hs IH Hu]; [done|].
  rewrite validTimes_cons, Sub_lt_iff by done.
  destruct (Z.ltb_spec (now - u) win) as [Hlt|Hge].
  - rewrite validTimes_all; [done|].
    eapply Forall_impl; [exact Hu|]. simpl. intros v Hv.
    apply Z.ltb_lt. rewrite Sub_lt_iff by done. apply Z.ltb_lt. lia.
  - by apply suffix_cons_r.
Qed.

Lemma StronglySorted_suffix (l1 l2 : list Z) :
  l1 `suffix_of` l2 -> StronglySorted Z.le l2 -> StronglySorted Z.le l1.
Proof. intros [k ->]. apply StronglySorted_app_1_r. Qed.

Lemma Forall_suffix (P : Z -> Prop) (l1 l2 : list Z) :
  l1 `suffix_of` l2 -> Forall P l2 -> Forall P l1.
Proof. intros [k ->] H. by apply Forall_app in H as [_ H]. Qed.

Lemma StronglySorted_snoc (l : list Z) now :
  StronglySorted Z.le l -> Forall (fun u => u <= now) l ->
  StronglySorted Z.le (l ++ [now]).
Proof.
  intros Hs Hle. apply StronglySorted_app_2; [|done|repeat constructor].
  intros x1 x2 Hx1 ->%list_elem_of_singleton.
  by eapply Forall_forall in Hle.
Qed.

Lemma recorded_later k t t' rl log :
  t <= t' -> recorded k t rl log -> recorded k t' rl log.
Proof.
  intros Hle (Hsuf & Hs & Hlog & Hne). repeat split; try done.
  eapply Forall_impl; [exact Hlog|]. simpl. intros; lia.
Qed.

Lemma recorded_cleanup k now rl log :
  Time.minDuration < window rl <= Time.maxDuration ->
  recorded k now rl log -> recorded k now (cleanup now rl) log.
Proof.
  intros Hw (Hsuf & Hs & Hlog & Hne). repeat split; try done.
  - rewrite history_cleanup. etrans; [|exact Hsuf].
    apply validTimes_suffix; [done|]. by eapply StronglySorted_suffix.
  - rewrite cleanup_lookup.
    destruct (requests rl !! k) as [times|]; [simpl|done].
    intros [_ ?]%pruned_entry_Some. done.
Qed.

Lemma recorded_Allow k now rl log :
  Time.minDuration < window rl <= Time.maxDuration ->
  recorded k now rl log ->
  recorded k now (Allow k now rl).2
    (log ++ if (Allow k now rl).1 then [now] else []).
Proof.
  intros Hw (Hsuf & Hs & Hlog & Hne).
  assert (Hhs : StronglySorted Z.le (history rl k)) by by eapply StronglySorted_suffix.
  destruct (Allow_decide_entry k now rl) as [Hres Hent].
  unfold recorded, history in *. rewrite Hent, Hres. clear Hres Hent.
  unfold decide_entry.
  destruct (requests rl !! k) as [times|] eqn:E; simpl in *.
  - destruct (_ >=? _); simpl.
    + rewrite app_nil_r. by repeat split.
    + split; [|split; [|split]].
      * apply suffix_app. etrans; [|exact Hsuf]. by apply validTimes_suffix.
      * by apply StronglySorted_snoc.
      * apply Forall_app. split; [done|]. apply Forall_singleton. lia.
      * intros [= H]. by destruct (validTimes now (window rl) times).
  - split; [|split; [|split]].
    + apply suffix_app_r. done.
    + by apply StronglySorted_snoc.
    + apply Forall_app. split; [done|]. apply Forall_singleton. lia.
    + done.
Qed.

Lemma recorded_Allow_other k k' now rl log :
  k' ≠ k -> recorded k now rl log -> recorded k now (Allow k' now rl).2 log.
Proof.
  intros Hne (Hsuf & Hs & Hlog & Hn). unfold recorded, history in *.
  rewrite Allow_lookup_ne by done. done.
Qed.

Lemma recorded_run k evs : forall t rl log,
  Time.minDuration < window rl <= Time.maxDuration ->
  monotone_from t evs ->
  recorded k t rl log ->
  recorded k (last_time t evs) (run evs rl) (log ++ admitted_at k evs rl).
Proof.
  induction evs as [|e evs IH]; intros t rl log Hw Hmono Hrec.
  { simpl. by rewrite app_nil_r. }
  destruct Hmono as [Hle Hmono].
  apply (recorded_later k t (event_time e)) in Hrec; [|done].
  destruct e as [k' now|now]; simpl in *.
  - destruct (decide (k' = k)) as [->|Hne].
    + rewrite app_assoc. apply IH; rewrite ?Allow_window; try done.
      by apply recorded_Allow.
    + apply IH; rewrite ?Allow_window; try done.
      by apply recorded_Allow_other.
  - apply IH; rewrite ?cleanup_window; try done.
    by apply recorded_cleanup.
Qed.

(** X3.  In an execution that starts from a fresh limiter with limit at
    least 1 and reads a clock that does not go backwards, the sequence stored
    for a key is never empty, holds at most [limit] instants, and consists of
    the most recent admitted calls of that key, in the order they were made:
    it is a suffix of the log of admitted calls. *)
Theorem stored_entry_shape (L W t0 : Z) (evs : list event) (k : string)
    (times : list Z) :
  1 <= L ->
  Time.minDuration < W <= Time.maxDuration ->
  monotone_from t0 evs ->
  requests (run evs (NewRateLimiter L W)) !! k = Some times ->
  times <> []
  /\ Z.of_nat (length times) <= L
  /\ times `suffix_of` admitted_at k evs (NewRateLimiter L W)
  /\ StronglySorted Z.le times
  /\ Forall (fun u => u <= last_time t0 evs) times.
Proof.
  intros HL HW Hmono E.
  destruct (recorded_run k evs t0 (NewRateLimiter L W) [] HW Hmono)
    as (Hsuf & Hs & Hlog & Hne).
  { repeat split; try done; constructor. }
  simpl in *. rewrite (history_Some _ _ _ E) in Hsuf.
  repeat split.
  - congruence.
  - pose proof (bounded_run evs (NewRateLimiter L W) HL (bounded_New L W) k times E) as Hb.
    by rewrite run_limit in Hb.
  - done.
  - by eapply StronglySorted_suffix.
  - by eapply Forall_suffix.
Qed.

Lemma stored_entry_shape_witness :
  [70; 120] <> []
  /\ Z.of_nat (length [70; 120]) <= 2
  /\ [70; 120] `suffix_of`
       admitted_at "k" [EvAllow "k" 0; EvAllow "k" 50; EvAllow "k" 70; EvAllow "k" 120]
         (NewRateLimiter 2 70)
  /\ StronglySorted Z.le [70; 120]
  /\ Forall (fun u => u <= 120) [70; 120].
Proof.
  apply (stored_entry_shape 2 70 0
           [EvAllow "k" 0; EvAllow "k" 50; EvAllow "k" 70; EvAllow "k" 120] "k" [70; 120]).
  - lia.
  - unfold Time.minDuration, Time.maxDuration. lia.
  - simpl. lia.
  - vm_compute. reflexivity.
Defined.

(** *** One [cleanup] pass after another *)

Lemma RateLimiter_eq rl1 rl2 :
  requests rl1 = requests rl2 -> limit rl1 = limit rl2 -> window rl1 = window rl2 ->
  rl1 = rl2.
Proof. destruct rl1, rl2; simpl. by intros -> -> ->. Qed.

Lemma pruned_entry_later t1 t2 win times :
  Time.minDuration < win <= Time.maxDuration ->
  t1 <= t2 ->
  pruned_entry t1 win times ≫= pruned_entry t2 win = pruned_entry t2 win times.
Proof.
  intros Hw Hle.
  pose proof (validTimes_validTimes t1 t2 win times Hw Hle) as Hvv.
  unfold pruned_entry at 2.
  destruct (validTimes t1 win times) as [|v valid] eqn:E; simpl.
  - unfold pruned_entry. by rewrite <- Hvv.
  - unfold pruned_entry. by rewrite Hvv.
Qed.

(** X4.  A [cleanup] pass makes every earlier pass redundant: a pass at [t1]
    followed by a pass at [t2 >= t1] leaves the limiter a single pass at [t2]
    leaves.  In particular a pass repeated at the same instant changes
    nothing. *)
Theorem cleanup_absorbs_earlier (t1 t2 : Z) (rl : RateLimiter) :
  Time.minDuration < window rl <= Time.maxDuration ->
  t1 <= t2 ->
  cleanup t2 (cleanup t1 rl) = cleanup t2 rl.
Proof.
  intros Hw Hle. apply RateLimiter_eq; [|done|done].
  apply map_eq. intros k. rewrite !cleanup_lookup, cleanup_window.
  destruct (requests rl !! k) as [times|]; [simpl|done].
  by apply pruned_entry_later.
Qed.

Lemma cleanup_absorbs_earlier_witness :
  cleanup 130 (cleanup 110 (mkRateLimiter {[ "a" := [0; 20; 40]; "b" := [5] ]} 3 100))
  = cleanup 130 (mkRateLimiter {[ "a" := [0; 20; 40]; "b" := [5] ]} 3 100).
Proof.
  apply (cleanup_absorbs_earlier 110 130
           (mkRateLimiter {[ "a" := [0; 20; 40]; "b" := [5] ]} 3 100)).
  - unfold Time.minDuration, Time.maxDuration. simpl. lia.
  - lia.
Defined.

Lemma validTimes_sublist now win times : validTimes now win times `sublist_of` times.
Proof.
  induction times as [|t times IH]; [done|].
  rewrite validTimes_cons. destruct (_ <? _); by constructor.
Qed.

(** X5.  [cleanup] only removes: after a pass every key of the map was a key
    before, bound to a sequence of which the new one is a subsequence, so the
    map has no more keys than before; and a map whose entries are non-empty
    and hold no stale instant is left as it is. *)
Theorem cleanup_only_removes (now : Z) (rl : RateLimiter) :
  (forall k times, requests (cleanup now rl) !! k = Some times ->
     exists old, requests rl !! k = Some old /\ times `sublist_of` old)
  /\ (size (requests (cleanup now rl)) <= size (requests rl))%nat
  /\ ((forall k times, requests rl !! k = Some times ->
         times <> [] /\ Forall (fun t => Time.Sub now t < window rl) times) ->
      cleanup now rl = rl).
Proof.
  split; [|split].
  - intros k times. rewrite cleanup_lookup.
    destruct (requests rl !! k) as [old|]; [simpl|done].
    intros [-> _]%pruned_entry_Some. exists old. split; [done|].
    apply validTimes_sublist.
  - assert (Hsub : dom (requests (cleanup now rl)) ⊆ dom (requests rl)).
    { intros k. rewrite !elem_of_dom, cleanup_lookup.
      destruct (requests rl !! k); [by eauto|]. by intros [? ?]. }
    apply subseteq_size in Hsub. by rewrite !size_dom in Hsub.
  - intros Hfresh. apply RateLimiter_eq; [|done|done].
    apply map_eq. intros k. rewrite cleanup_lookup.
    destruct (requests rl !! k) as [times|] eqn:E; [simpl|done].
    destruct (Hfresh k times E) as [Hne Hall].
    unfold pruned_entry. rewrite validTimes_all by done.
    by destruct times.
Qed.

Lemma cleanup_only_removes_witness :
  cleanup 50 (mkRateLimiter {[ "a" := [0; 20] ]} 3 100)
  = mkRateLimiter {[ "a" := [0; 20] ]} 3 100.
Proof.
  apply (proj2 (proj2 (cleanup_only_removes 50
           (mkRateLimiter {[ "a" := [0; 20] ]} 3 100)))).
  intros k times. simpl. intros [<- <-]%lookup_singleton_Some. split; [done|].
  repeat (apply Forall_cons_2; [reflexivity|]). apply Forall_nil_2.
Defined.

(** *** [cleanup] and [Allow] at the same instant *)

Lemma validTimes_snoc now win times :
  0 < win ->
  validTimes now win (validTimes now win times ++ [now])
  = validTimes now win times ++ [now].
Proof.
  intros Hw. apply validTimes_all, Forall_app. split.
  - apply Forall_forall. intros t [_ Ht]%elem_of_validTimes. exact Ht.
  - apply Forall_singleton. unfold Time.Sub, Time.minDuration, Time.maxDuration.
    rewrite Z.sub_diag. simpl. lia.
Qed.

Lemma pruned_entry_snoc now win times :
  0 < win ->
  pruned_entry now win (validTimes now win times ++ [now])
  = Some (validTimes now win times ++ [now]).
Proof.
  intros Hw. unfold pruned_entry. rewrite validTimes_snoc by done.
  by destruct (validTimes now win times).
Qed.

Lemma decide_entry_pruned L W now (e : option (list Z)) :
  1 <= L -> 0 < W ->
  decide_entry L W now (e ≫= pruned_entry now W)
  = ((decide_entry L W now e).1, (decide_entry L W now e).2 ≫= pruned_entry now W).
Proof.
  intros HL HW. destruct e as [times|]; simpl.
  - pose proof (pruned_entry_snoc now W times HW) as Hsnoc.
    pose proof (validTimes_idem now W times) as Hidem.
    unfold pruned_entry at 1.
    destruct (validTimes now W times) as [|v valid] eqn:E; simpl.
    + destruct (Z.geb_spec (Z.of_nat 0) L); [lia|].
      simpl in Hsnoc |- *. by rewrite Hsnoc.
    + rewrite Hidem.
      simpl in Hsnoc |- *.
      destruct (Z.of_nat (S (length valid)) >=? L); simpl.
      * unfold pruned_entry. by rewrite E.
      * by rewrite Hsnoc.
  - pose proof (pruned_entry_snoc now W [] HW) as Hsnoc.
    simpl in Hsnoc. by rewrite Hsnoc.
Qed.

(** X6.  At one instant the order of a [cleanup] pass and a call of [Allow]
    does not matter (limit at least 1, positive window): the answer and the
    limiter that results are the same either way. *)
Theorem cleanup_Allow_commute (k : string) (now : Z) (rl : RateLimiter) :
  1 <= limit rl ->
  0 < window rl ->
  (Allow k now (cleanup now rl)).1 = (Allow k now rl).1
  /\ (Allow k now (cleanup now rl)).2 = cleanup now (Allow k now rl).2.
Proof.
  intros Hl Hw.
  destruct (Allow_decide_entry k now rl) as [R1 E1].
  destruct (Allow_decide_entry k now (cleanup now rl)) as [R2 E2].
  rewrite cleanup_lookup, cleanup_limit, cleanup_window in R2, E2.
  rewrite decide_entry_pruned in R2, E2 by done. simpl in R2, E2.
  split; [congruence|].
  apply RateLimiter_eq.
  - apply map_eq. intros k'. rewrite cleanup_lookup, Allow_window.
    destruct (decide (k = k')) as [<-|Hne].
    + by rewrite E2, E1.
    + rewrite !Allow_lookup_ne by done. apply cleanup_lookup.
  - by rewrite cleanup_limit, !Allow_limit.
  - by rewrite cleanup_window, !Allow_window.
Qed.

Lemma cleanup_Allow_commute_witness :
  (Allow "a" 110 (cleanup 110 (mkRateLimiter {[ "a" := [0; 20]; "b" := [5] ]} 2 100))).2
  = cleanup 110 (Allow "a" 110 (mkRateLimiter {[ "a" := [0; 20]; "b" := [5] ]} 2 100)).2.
Proof.
  refine (proj2 (cleanup_Allow_commute "a" 110
                   (mkRateLimiter {[ "a" := [0; 20]; "b" := [5] ]} 2 100) _ _)).
  - simpl. lia.
  - simpl. lia.
Defined.

End Shape.

(** ** Concurrent calls are answered as in some sequential order *)

Module LinearFacts.
Import Concurrent Linear.

Lemma run_snoc evs e rl : run (evs ++ [e]) rl = step (run evs rl) e.
Proof. revert rl. induction evs as [|e' evs IH]; intros rl; [done|]. apply IH. Qed.

Lemma outcomes_snoc_Allow evs key now rl :
  outcomes (evs ++ [EvAllow key now]) rl
  = outcomes evs rl ++ [(Allow key now (run evs rl)).1].
Proof.
  revert rl. induction evs as [|e evs IH]; intros rl; [done|].
  destruct e; simpl; by rewrite IH.
Qed.

Lemma monotone_from_snoc t evs e :
  monotone_from t evs -> last_time t evs <= event_time e ->
  monotone_from t (evs ++ [e]).
Proof.
  revert t. induction evs as [|e' evs IH]; intros t Hm Hle; simpl in *; [done|].
  destruct Hm as [? Hm]. split; [done|]. by apply IH.
Qed.

Lemma last_time_snoc t evs e : last_time t (evs ++ [e]) = event_time e.
Proof. revert t. induction evs as [|e' evs IH]; intros t; [done|]. apply IH. Qed.

Lemma calls_snoc keys order g now :
  calls keys (order ++ [(g, now)])
  = calls keys order ++ [EvAllow (default EmptyString (keys !! g)) now].
Proof. unfold calls. by rewrite fmap_snoc. Qed.

Lemma effect_move c g key p h rl gn :
  (g < length (goroutines c))%nat ->
  effect (move g key p h rl c) gn
  = if decide (gn.1 = g) then settled p else effect c gn.
Proof.
  intros Hg. unfold effect. simpl. case_decide as E.
  - rewrite E, list_lookup_insert_eq by done. done.
  - by rewrite list_lookup_insert_ne.
Qed.

Lemma local_lin_outside t0 evs c key p : in_cs p = false -> local_lin t0 evs c key p.
Proof. by destruct p. Qed.

Section Invariant.

Variables (keys : list string) (rl0 : RateLimiter) (t0 : Z).

Lemma Lin_init : Lin keys rl0 t0 (init_keys rl0 t0 keys) [].
Proof.
  split; simpl; try done.
  - intros g key p. rewrite list_lookup_fmap.
    destruct (keys !! g); simpl; [|done]. by intros [= <- <-].
  - intros g key p. rewrite list_lookup_fmap.
    destruct (keys !! g); simpl; [|done]. by intros [= <- <-].
  - constructor.
  - intros g. split; [by intros ?%elem_of_nil|].
    intros (key & p & Hg & Hs). rewrite list_lookup_fmap in Hg.
    destruct (keys !! g); simpl in Hg; [|done].
    injection Hg as <- <-. by destruct Hs.
  - intros g key p. rewrite list_lookup_fmap.
    destruct (keys !! g); simpl; [|done]. by intros [= <- <-].
Qed.

Lemma others_idle c order g key p :
  Lin keys rl0 t0 c order ->
  goroutines c !! g = Some (key, p) ->
  in_cs p = true \/ mu c = None ->
  forall g' key' p', g' ≠ g -> goroutines c !! g' = Some (key', p') -> in_cs p' = false.
Proof.
  intros HL Hg Hcs g' key' p' Hne Hg'.
  destruct (in_cs p') eqn:E; [|done].
  pose proof (lin_mutex _ _ _ _ _ HL g' key' p' Hg' E) as Hmu.
  destruct Hcs as [Hcs|Hfree]; [|congruence].
  pose proof (lin_mutex _ _ _ _ _ HL g key p Hg Hcs). congruence.
Qed.

(** A statement that does not settle the answer keeps the order. *)
Lemma Lin_move_same c order g key p p' holder :
  Lin keys rl0 t0 c order ->
  goroutines c !! g = Some (key, p) ->
  in_cs p = true \/ mu c = None ->
  holder = (if in_cs p' then Some g else None) ->
  settled p' = settled p ->
  local_lin t0 (calls keys order) (move g key p' holder (shared c) c) key p' ->
  Lin keys rl0 t0 (move g key p' holder (shared c) c) order.
Proof.
  intros HL Hg Hcs -> Hset Hloc.
  pose proof (others_idle c order g key p HL Hg Hcs) as Hothers.
  assert (Hlt : (g < length (goroutines c))%nat) by by eapply lookup_lt_Some.
  split; simpl; try apply HL.
  - intros g' key' q [[-> [= -> ->]]|[Hne Hq]]%ConcurrentFacts.lookup_moved.
    + by eapply lin_keys.
    + by eapply lin_keys.
  - intros g' key' q [[-> [= -> ->]]|[Hne Hq]]%ConcurrentFacts.lookup_moved Hq'.
    + by rewrite Hq'.
    + rewrite (Hothers g' key' q Hne Hq) in Hq'. done.
  - intros g'. rewrite (lin_members _ _ _ _ _ HL g').
    destruct (decide (g' = g)) as [->|Hne].
    + rewrite list_lookup_insert_eq by done. rewrite Hg.
      split; intros (key' & q & [= <- <-] & Hs); exists key; eexists;
        (split; [done|]); congruence.
    + by rewrite list_lookup_insert_ne.
  - rewrite <- (lin_effect _ _ _ _ _ HL).
    apply list_fmap_ext. intros i gn _.
    rewrite effect_move by done. case_decide as E; [|done].
    unfold effect. by rewrite E, Hg.
  - intros g' key' q [[-> [= -> ->]]|[Hne Hq]]%ConcurrentFacts.lookup_moved; [done|].
    apply local_lin_outside. by eapply Hothers.
Qed.

(** The statement that settles the answer of goroutine [g] puts its call
    last in the order; what it does to the shared limiter is what [Allow]
    does. *)
Lemma Lin_move_commit c order g key p now :
  Lin keys rl0 t0 c order ->
  goroutines c !! g = Some (key, p) ->
  in_cs p = true ->
  settled p = None ->
  last_time t0 (calls keys order) <= now <= clock c ->
  Lin keys rl0 t0
    (move g key (PReturn (Allow key now (shared c)).1) (Some g)
       (Allow key now (shared c)).2 c)
    (order ++ [(g, now)]).
Proof.
  intros HL Hg Hcs Hset Hnow.
  pose proof (others_idle c order g key p HL Hg (or_introl Hcs)) as Hothers.
  assert (Hlt : (g < length (goroutines c))%nat) by by eapply lookup_lt_Some.
  assert (Hkey : keys !! g = Some key) by by eapply lin_keys.
  assert (Hnew : g ∉ order.*1).
  { rewrite (lin_members _ _ _ _ _ HL g). intros (key' & q & Hq & Hs).
    rewrite Hg in Hq. injection Hq as <- <-. rewrite Hset in Hs. by destruct Hs. }
  split; simpl.
  - intros g' key' q [[-> [= -> ->]]|[Hne Hq]]%ConcurrentFacts.lookup_moved.
    + done.
    + by eapply lin_keys.
  - intros g' key' q [[-> [= -> ->]]|[Hne Hq]]%ConcurrentFacts.lookup_moved Hq'.
    + done.
    + rewrite (Hothers g' key' q Hne Hq) in Hq'. done.
  - rewrite fmap_snoc. apply NoDup_app. split; [apply HL|]. split.
    + intros x Hx ->%list_elem_of_singleton. done.
    + apply NoDup_singleton.
  - intros g'. rewrite fmap_snoc, elem_of_app, list_elem_of_singleton.
    rewrite (lin_members _ _ _ _ _ HL g'). simpl.
    destruct (decide (g' = g)) as [->|Hne].
    + rewrite list_lookup_insert_eq by done. split; [|by right].
      intros _. exists key. eexists. split; [done|]. by eexists.
    + rewrite list_lookup_insert_ne by done. split; [|by left].
      by intros [?|?].
  - rewrite calls_snoc. apply monotone_from_snoc; [apply HL|]. simpl. lia.
  - rewrite calls_snoc, last_time_snoc. simpl. lia.
  - rewrite calls_snoc, run_snoc, Hkey. simpl.
    by rewrite <- (lin_shared _ _ _ _ _ HL).
  - rewrite calls_snoc, outcomes_snoc_Allow, !fmap_snoc, Hkey. simpl.
    rewrite <- (lin_shared _ _ _ _ _ HL). f_equal.
    + rewrite <- (lin_effect _ _ _ _ _ HL).
      apply list_fmap_ext. intros i gn Hgn.
      rewrite effect_move by done. case_decide as E; [|done].
      destruct Hnew. rewrite <- E.
      apply list_elem_of_fmap_2. by eapply list_elem_of_lookup_2.
    + rewrite effect_move by done. simpl. by case_decide.
  - intros g' key' q [[-> [= -> ->]]|[Hne Hq]]%ConcurrentFacts.lookup_moved; [done|].
    apply local_lin_outside. by eapply Hothers.
Qed.

Lemma Lin_step_goroutine c order g key p :
  Lin keys rl0 t0 c order ->
  goroutines c !! g = Some (key, p) ->
  exists order', Lin keys rl0 t0 (step_goroutine g key p c) order'.
Proof.
  intros HL Hg.
  pose proof (lin_local _ _ _ _ _ HL g key p Hg) as Hloc.
  pose proof (lin_clock _ _ _ _ _ HL) as Hclock.
  assert (Hmu : in_cs p = true -> mu c = Some g)
    by (intros Hcs; by eapply lin_mutex).
  destruct p as [| | now | now [|t rest] valid | now valid | now valid | b | b];
    simpl in *.
  - (* Lock *)
    destruct (mu c) eqn:Emu; [by exists order|].
    exists order. eapply (Lin_move_same _ _ _ _ _ _ _ HL Hg); auto.
  - (* now := time.Now() *)
    rewrite Hmu by done. exists order.
    eapply (Lin_move_same _ _ _ _ _ _ _ HL Hg); simpl; auto. lia.
  - (* times, exists := rl.requests[key] *)
    rewrite Hmu by done.
    destruct (requests (shared c) !! key) as [times|] eqn:E.
    + exists order.
      eapply (Lin_move_same _ _ _ _ _ _ _ HL Hg); simpl; auto.
      split; [done|]. by exists times.
    + exists (order ++ [(g, now)]).
      pose proof (Lin_move_commit c order g key _ now HL Hg) as Hc.
      unfold Allow in Hc. rewrite E in Hc. by apply Hc.
  - (* the filter loop is over *)
    rewrite Hmu by done. exists order.
    eapply (Lin_move_same _ _ _ _ _ _ _ HL Hg); simpl; auto.
  - (* one round of the filter loop *)
    rewrite Hmu by done. exists order.
    eapply (Lin_move_same _ _ _ _ _ _ _ HL Hg); simpl; auto.
  - (* if len(validTimes) >= rl.limit *)
    rewrite Hmu by done. destruct Hloc as (Hnow & times & E & ->).
    destruct (Z.of_nat (length (validTimes now (window (shared c)) times))
              >=? limit (shared c)) eqn:Egeb.
    + exists (order ++ [(g, now)]).
      pose proof (Lin_move_commit c order g key _ now HL Hg) as Hc.
      unfold Allow in Hc. rewrite E in Hc. simpl in Hc. rewrite Egeb in Hc.
      by apply Hc.
    + exists order.
      eapply (Lin_move_same _ _ _ _ _ _ _ HL Hg); simpl; auto.
      split; [done|]. split; [by exists times | done].
  - (* append and store *)
    rewrite Hmu by done. destruct Hloc as (Hnow & (times & E & ->) & Egeb).
    exists (order ++ [(g, now)]).
    pose proof (Lin_move_commit c order g key _ now HL Hg) as Hc.
    unfold Allow in Hc. rewrite E in Hc. simpl in Hc. rewrite Egeb in Hc.
    by apply Hc.
  - (* the deferred Unlock *)
    exists order.
    eapply (Lin_move_same _ _ _ _ _ _ _ HL Hg); simpl; auto.
  - by exists order.
Qed.

Lemma Lin_exec a c order :
  Lin keys rl0 t0 c order ->
  exists order', Lin keys rl0 t0 (exec a c) order'.
Proof.
  intros HL. destruct a as [g|d]; simpl.
  - destruct (goroutines c !! g) as [[key p]|] eqn:Hg; [|by exists order].
    by eapply Lin_step_goroutine.
  - destruct (Z.leb_spec 0 d); [|by exists order].
    exists order. destruct HL as [? ? ? ? ? Hclock ? ? Hloc].
    split; simpl; try done.
    + lia.
    + intros g key p Hg. specialize (Hloc g key p Hg).
      destruct p; simpl in *; try done.
      * lia.
      * destruct Hloc as [? ?]. split; [lia | done].
      * destruct Hloc as [? ?]. split; [lia | done].
      * destruct Hloc as [? ?]. split; [lia | done].
Qed.

Lemma Lin_execs sched : forall c order,
  Lin keys rl0 t0 c order ->
  exists order', Lin keys rl0 t0 (execs sched c) order'.
Proof.
  induction sched as [|a sched IH]; intros c order HL; [by exists order|].
  destruct (Lin_exec a c order HL) as [order' HL'].
  simpl. by eapply IH.
Qed.

End Invariant.

Lemma init_keys_length rl t0 keys :
  length (goroutines (init_keys rl t0 keys)) = length keys.
Proof. simpl. by rewrite length_fmap. Qed.

(** X7.  Goroutines that call [Allow] concurrently, with any keys and on any
    limiter, are answered as if the calls had been made one after the other:
    once all have returned there is an order of the calls, each goroutine
    once, with instants that do not decrease, such that the shared limiter is
    what the sequential calls leave and every goroutine has returned what its
    sequential call returns. *)
Theorem concurrent_calls_linearizable (rl0 : RateLimiter) (t0 : Z)
    (keys : list string) (sched : list action) :
  all_done (execs sched (init_keys rl0 t0 keys)) = true ->
  exists order : list (nat * Z),
    order.*1 ≡ₚ seq 0 (length keys)
    /\ monotone_from t0 (calls keys order)
    /\ shared (execs sched (init_keys rl0 t0 keys)) = run (calls keys order) rl0
    /\ answers (execs sched (init_keys rl0 t0 keys)) order
       = Some <$> outcomes (calls keys order) rl0.
Proof.
  intros Hdone.
  destruct (Lin_execs keys rl0 t0 sched _ [] (Lin_init keys rl0 t0)) as [order HL].
  set (c := execs sched (init_keys rl0 t0 keys)) in *.
  assert (Hlen : length (goroutines c) = length keys).
  { unfold c. by rewrite ConcurrentFacts.execs_goroutines_length, init_keys_length. }
  assert (Hall : forall g key p, goroutines c !! g = Some (key, p) -> exists b, p = PDone b).
  { intros g key p Hg. unfold all_done in Hdone.
    rewrite forallb_forall in Hdone.
    assert (Hin : In (key, p) (goroutines c)).
    { apply list_elem_of_In. by eapply list_elem_of_lookup_2. }
    specialize (Hdone _ Hin). destruct p; try done. by eexists. }
  exists order. split; [|split; [|split]].
  - apply NoDup_Permutation; [apply HL | apply NoDup_seq |].
    intros g. rewrite (lin_members _ _ _ _ _ HL g), elem_of_seq. split.
    + intros (key & p & Hg & _). apply lookup_lt_Some in Hg. lia.
    + intros [_ Hg]. simpl in Hg. rewrite <- Hlen in Hg.
      apply lookup_lt_is_Some in Hg as [[key p] Hg].
      exists key, p. split; [done|].
      destruct (Hall g key p Hg) as [b ->]. by eexists.
  - apply HL.
  - apply HL.
  - rewrite <- (lin_effect _ _ _ _ _ HL). unfold answers.
    apply list_fmap_ext. intros i gn _. unfold effect.
    destruct (goroutines c !! gn.1) as [[key p]|] eqn:Hg; [simpl|done].
    by destruct (Hall _ key p Hg) as [b ->].
Qed.

Lemma concurrent_calls_linearizable_witness :
  exists order : list (nat * Z),
    order.*1 ≡ₚ seq 0 (length ["a"; "b"])
    /\ monotone_from 0 (calls ["a"; "b"] order)
    /\ shared (execs
         [Run 1; Run 0; Run 1; Tick 3; Run 1; Run 0; Run 1; Run 0; Run 0; Run 0;
          Run 0; Run 0; Run 0; Run 0]
         (init_keys (NewRateLimiter 1 100) 0 ["a"; "b"]))
       = run (calls ["a"; "b"] order) (NewRateLimiter 1 100)
    /\ answers (execs
         [Run 1; Run 0; Run 1; Tick 3; Run 1; Run 0; Run 1; Run 0; Run 0; Run 0;
          Run 0; Run 0; Run 0; Run 0]
         (init_keys (NewRateLimiter 1 100) 0 ["a"; "b"])) order
       = Some <$> outcomes (calls ["a"; "b"] order) (NewRateLimiter 1 100).
Proof.
  apply (concurrent_calls_linearizable (NewRateLimiter 1 100) 0 ["a"; "b"]
           [Run 1; Run 0; Run 1; Tick 3; Run 1; Run 0; Run 1; Run 0; Run 0; Run 0;
            Run 0; Run 0; Run 0; Run 0]).
  vm_compute. reflexivity.
Defined.

(** X8.  Whatever the schedule, at most one goroutine is between [Lock] and
    the deferred [Unlock] of [Allow] at any time. *)
Theorem one_goroutine_in_Allow (rl0 : RateLimiter) (t0 : Z) (keys : list string)
    (sched : list action) (g1 g2 : nat) (key1 key2 : string) (p1 p2 : pc) :
  goroutines (execs sched (init_keys rl0 t0 keys)) !! g1 = Some (key1, p1) ->
  goroutines (execs sched (init_keys rl0 t0 keys)) !! g2 = Some (key2, p2) ->
  in_cs p1 = true ->
  in_cs p2 = true ->
  g1 = g2.
Proof.
  intros Hg1 Hg2 Hp1 Hp2.
  destruct (Lin_execs keys rl0 t0 sched _ [] (Lin_init keys rl0 t0)) as [order HL].
  pose proof (lin_mutex _ _ _ _ _ HL g1 key1 p1 Hg1 Hp1) as H1.
  pose proof (lin_mutex _ _ _ _ _ HL g2 key2 p2 Hg2 Hp2) as H2.
  congruence.
Qed.

Lemma one_goroutine_in_Allow_witness : 1%nat = 1%nat.
Proof.
  apply (one_goroutine_in_Allow (NewRateLimiter 1 100) 0 ["a"; "b"]
           [Run 1; Run 0; Run 1] 1 1 "b" "b" (PLookup 0) (PLookup 0));
    vm_compute; reflexivity.
Defined.

End LinearFacts.

(** ** Patterns and passwords *)

Module RegexpFacts.
Import Stdlib.Strings.Ascii Regexp.

Lemma lang_nil_cat r1 r2 : lang (Cat r1 r2) [] -> lang r1 [] /\ lang r2 [].
Proof.
  intros H. remember [] as w eqn:Hw. remember (Cat r1 r2) as r eqn:Hr.
  destruct H as [| |r1' r2' s1 s2 H1 H2| | | |]; try discriminate.
  injection Hr as -> ->.
  apply app_eq_nil in Hw as [-> ->]. done.
Qed.

Lemma nullable_lang r : nullable r = true <-> lang r [].
Proof.
  induction r as [| |ranges|r1 IH1 r2 IH2|r1 IH1 r2 IH2|r IH]; simpl.
  - split; [done | intros H; inversion H].
  - split; [constructor | done].
  - split; [done | intros H; inversion H].
  - rewrite andb_true_iff, IH1, IH2. split.
    + intros [H1 H2]. by apply (lang_cat r1 r2 [] []).
    + apply lang_nil_cat.
  - rewrite orb_true_iff, IH1, IH2. split.
    + intros [H|H]; [by apply lang_alt_l | by apply lang_alt_r].
    + intros H. inversion H; subst; auto.
  - split; [constructor | done].
Qed.

Lemma lang_deriv_1 c r : forall s, lang (deriv c r) s -> lang r (c :: s).
Proof.
  induction r as [| |ranges|r1 IH1 r2 IH2|r1 IH1 r2 IH2|r IH]; intros s; simpl.
  - intros H; inversion H.
  - intros H; inversion H.
  - destruct (in_class ranges c) eqn:E; intros H; inversion H; subst.
    by constructor.
  - assert (Hcat : lang (Cat (deriv c r1) r2) s -> lang (Cat r1 r2) (c :: s)).
    { intros H. inversion H as [| |? ? s1 s2 H1 H2| | | |]; subst.
      apply (lang_cat r1 r2 (c :: s1) s2); auto. }
    destruct (nullable r1) eqn:E; [|done].
    intros H. inversion H; subst; [auto|].
    apply (lang_cat r1 r2 [] (c :: s)); [by apply nullable_lang | auto].
  - intros H. inversion H; subst; [apply lang_alt_l | apply lang_alt_r]; auto.
  - intros H. inversion H as [| |? ? s1 s2 H1 H2| | | |]; subst.
    apply (lang_star_app r (c :: s1) s2); auto.
Qed.

Lemma lang_deriv_2 r w : lang r w -> forall c s, w = c :: s -> lang (deriv c r) s.
Proof.
  induction 1 as [|ranges c' Hc|r1 r2 s1 s2 H1 IH1 H2 IH2|r1 r2 s' H IH|r1 r2 s' H IH
                  | r | r s1 s2 H1 IH1 H2 IH2]; intros c s Heq; simpl.
  - done.
  - injection Heq as -> <-. rewrite Hc. constructor.
  - destruct s1 as [|c1 s1]; simpl in Heq.
    + subst s2. apply nullable_lang in H1. rewrite H1.
      apply lang_alt_r. by apply IH2.
    + injection Heq as -> <-.
      assert (Hcat : lang (Cat (deriv c r1) r2) (s1 ++ s2)).
      { apply lang_cat; [by apply IH1 | done]. }
      destruct (nullable r1); [by apply lang_alt_l | done].
  - apply lang_alt_l. by apply IH.
  - apply lang_alt_r. by apply IH.
  - done.
  - destruct s1 as [|c1 s1]; simpl in Heq.
    + by apply IH2.
    + injection Heq as -> <-. apply lang_cat; [by apply IH1 | done].
Qed.

Lemma lang_deriv c r s : lang (deriv c r) s <-> lang r (c :: s).
Proof. split; [apply lang_deriv_1 | intros H; by eapply lang_deriv_2]. Qed.

(** The matcher decides the language of the pattern. *)
Lemma matches_lang s : forall r, matches r s = true <-> lang r s.
Proof.
  induction s as [|c s IH]; intros r; simpl.
  - apply nullable_lang.
  - rewrite IH. apply lang_deriv.
Qed.

(** *** What the combinators denote *)

Lemma lang_cat_iff r1 r2 s :
  lang (Cat r1 r2) s <-> exists s1 s2, s = s1 ++ s2 /\ lang r1 s1 /\ lang r2 s2.
Proof.
  split.
  - intros H. inversion H; subst. eauto.
  - intros (s1 & s2 & -> & H1 & H2). by constructor.
Qed.

Lemma lang_class_iff ranges s :
  lang (Class ranges) s <-> exists c, s = [c] /\ in_class ranges c = true.
Proof.
  split.
  - intros H. inversion H; subst. eauto.
  - intros (c & -> & Hc). by constructor.
Qed.

Lemma lang_eps_iff s : lang Eps s <-> s = [].
Proof. split; [intros H; by inversion H | intros ->; constructor]. Qed.

Lemma lang_star_class_1 r s :
  lang r s -> forall ranges, r = Star (Class ranges) ->
  Forall (fun c => in_class ranges c = true) s.
Proof.
  induction 1 as [| | | | | r' | r' s1 s2 H1 _ H2 IH2]; intros rs Heq; try done.
  injection Heq as ->. apply Forall_app. split; [|by apply IH2].
  apply lang_class_iff in H1 as (c & -> & Hc). by apply Forall_singleton.
Qed.

Lemma lang_star_class ranges s :
  lang (Star (Class ranges)) s <-> Forall (fun c => in_class ranges c = true) s.
Proof.
  split; [intros H; by eapply lang_star_class_1|].
  induction 1 as [|c s Hc _ IH]; [constructor|].
  apply (lang_star_app _ [c] s); [by constructor | done].
Qed.

Lemma lang_exactly_class ranges n : forall s,
  lang (exactly n (Class ranges)) s
  <-> length s = n /\ Forall (fun c => in_class ranges c = true) s.
Proof.
  induction n as [|n IH]; intros s; simpl.
  - rewrite lang_eps_iff. split; [by intros -> | intros [Hl _]; by destruct s].
  - rewrite lang_cat_iff. split.
    + intros (s1 & s2 & -> & (c & -> & Hc)%lang_class_iff & [Hl Hall]%IH).
      simpl. split; [by rewrite Hl | by constructor].
    + intros [Hl Hall]. destruct s as [|c s]; [done|].
      apply Forall_cons in Hall as [Hc Hall]. exists [c], s.
      split; [done|]. split; [by constructor|]. apply IH. split; [|done].
      simpl in Hl. lia.
Qed.

Lemma lang_at_most_class ranges n : forall s,
  lang (at_most n (Class ranges)) s
  <-> (length s <= n)%nat /\ Forall (fun c => in_class ranges c = true) s.
Proof.
  induction n as [|n IH]; intros s; simpl.
  - rewrite lang_eps_iff. split; [by intros -> | intros [Hl _]].
    destruct s; [done | simpl in Hl; lia].
  - split.
    + intros H. inversion H as [| | |? ? ? H'|? ? ? H'| |]; subst.
      * apply lang_eps_iff in H' as ->. simpl. split; [lia | constructor].
      * apply lang_cat_iff in H'
          as (s1 & s2 & -> & (c & -> & Hc)%lang_class_iff & [Hl Hall]%IH).
        simpl. split; [lia | by constructor].
    + intros [Hl Hall]. destruct s as [|c s]; [apply lang_alt_l; constructor|].
      apply Forall_cons in Hall as [Hc Hall]. apply lang_alt_r.
      apply (lang_cat _ _ [c] s); [by constructor|].
      apply IH. simpl in Hl. split; [lia | done].
Qed.

Lemma lang_between_class ranges n m s :
  (n <= m)%nat ->
  lang (between n m (Class ranges)) s
  <-> (n <= length s <= m)%nat /\ Forall (fun c => in_class ranges c = true) s.
Proof.
  intros Hnm. unfold between. rewrite lang_cat_iff. split.
  - intros (s1 & s2 & -> & [Hl1 H1]%lang_exactly_class & [Hl2 H2]%lang_at_most_class).
    rewrite length_app. split; [lia | by apply Forall_app].
  - intros [Hl Hall]. exists (take n s), (drop n s).
    split; [by rewrite take_drop|]. split.
    + apply lang_exactly_class. split; [rewrite length_take; lia|].
      by apply Forall_take.
    + apply lang_at_most_class. split; [rewrite length_drop; lia|].
      by apply Forall_drop.
Qed.

Lemma lang_at_least_class ranges n s :
  lang (at_least n (Class ranges)) s
  <-> (n <= length s)%nat /\ Forall (fun c => in_class ranges c = true) s.
Proof.
  unfold at_least. rewrite lang_cat_iff. split.
  - intros (s1 & s2 & -> & [Hl1 H1]%lang_exactly_class & H2%lang_star_class).
    rewrite length_app. split; [lia | by apply Forall_app].
  - intros [Hl Hall]. exists (take n s), (drop n s).
    split; [by rewrite take_drop|]. split.
    + apply lang_exactly_class. split; [rewrite length_take; lia|].
      by apply Forall_take.
    + apply lang_star_class. by apply Forall_drop.
Qed.

Lemma in_class_any c : in_class [(ascii_of_nat 0, ascii_of_nat 255)] c = true.
Proof. by destruct c as [[] [] [] [] [] [] [] []]. Qed.

(** An unanchored class matches when some byte of the string is in it. *)
Lemma lang_somewhere_class ranges s :
  lang (Cat (Star any) (Cat (Class ranges) (Star any))) s
  <-> exists c, c ∈ s /\ in_class ranges c = true.
Proof.
  rewrite lang_cat_iff. split.
  - intros (s1 & s2 & -> & _ & (s3 & s4 & -> & (c & -> & Hc)%lang_class_iff & _)%lang_cat_iff).
    exists c. split; [|done]. set_solver.
  - intros (c & (s1 & s2 & ->)%list_elem_of_split & Hc). exists s1, (c :: s2).
    split; [done|]. split.
    + apply lang_star_class, Forall_forall. intros; apply in_class_any.
    + apply (lang_cat _ _ [c] s2); [by constructor|].
      apply lang_star_class, Forall_forall. intros; apply in_class_any.
Qed.

Lemma length_list_ascii_of_string s :
  length (String.list_ascii_of_string s) = String.length s.
Proof. induction s as [|c s IH]; simpl; congruence. Qed.

Lemma in_class_char c x : in_class [(c, c)] x = true <-> x = c.
Proof.
  unfold in_class, in_range. simpl. rewrite orb_false_r, andb_true_iff, !N.leb_le.
  split.
  - intros [H1 H2].
    assert (Heq : N_of_ascii x = N_of_ascii c) by lia.
    rewrite <- (ascii_N_embedding x), <- (ascii_N_embedding c). by rewrite Heq.
  - intros ->. lia.
Qed.

Lemma lang_char c s : lang (char c) s <-> s = [c].
Proof.
  unfold char. rewrite lang_class_iff. split.
  - intros (x & -> & ->%in_class_char). done.
  - intros ->. exists c. split; [done|]. by apply in_class_char.
Qed.

Lemma lang_plus_class ranges s :
  lang (plus (Class ranges)) s
  <-> s <> [] /\ Forall (fun c => in_class ranges c = true) s.
Proof.
  unfold plus. rewrite lang_at_least_class. split.
  - intros [Hl Hall]. split; [|done]. intros ->. simpl in Hl. lia.
  - intros [Hne Hall]. split; [|done]. destruct s; [done | simpl; lia].
Qed.

End RegexpFacts.

Module PatternFacts.
Import Stdlib.Strings.Ascii Regexp Patterns RegexpFacts.

Lemma usernameRegex_spec (s : string) :
  match_whole usernameRegex s = true
  <-> (3 <= String.length s <= 50)%nat
      /\ Forall (fun c => in_class word c = true) (String.list_ascii_of_string s).
Proof.
  unfold match_whole, usernameRegex.
  rewrite matches_lang, lang_between_class by lia.
  by rewrite length_list_ascii_of_string.
Qed.

(** X9.  [usernameRegex] accepts a string exactly when it has between 3 and
    50 bytes and each of them is an ASCII letter, a digit or an underscore. *)
Theorem usernameRegex_accepts (s : string) :
  match_whole usernameRegex s = true
  <-> (3 <= String.length s <= 50)%nat
      /\ Forall (fun c => in_class word c = true) (String.list_ascii_of_string s).
Proof. apply usernameRegex_spec. Qed.

Lemma emailRegex_spec (s : string) :
  match_whole emailRegex s = true
  <-> exists l d t : list ascii,
        String.list_ascii_of_string s = l ++ "@"%char :: d ++ "."%char :: t
        /\ l <> [] /\ Forall (fun c => in_class local_part c = true) l
        /\ d <> [] /\ Forall (fun c => in_class domain_part c = true) d
        /\ (2 <= length t)%nat /\ Forall (fun c => in_class letter c = true) t.
Proof.
  unfold match_whole, emailRegex. rewrite matches_lang.
  split.
  - intros (l & s1 & -> & [Hl Hla]%lang_plus_class
            & (a & s2 & -> & ->%lang_char
               & (d & s3 & -> & [Hd Hda]%lang_plus_class
                  & (o & t & -> & ->%lang_char & [Ht Hta]%lang_at_least_class)
                      %lang_cat_iff)%lang_cat_iff)%lang_cat_iff)%lang_cat_iff.
    exists l, d, t. by repeat split.
  - intros (l & d & t & -> & Hl & Hla & Hd & Hda & Ht & Hta).
    apply lang_cat_iff. exists l, ("@"%char :: d ++ "."%char :: t).
    split; [done|]. split; [by apply lang_plus_class|].
    apply (lang_cat _ _ ["@"%char] (d ++ "."%char :: t)); [by apply lang_char|].
    apply lang_cat; [by apply lang_plus_class|].
    apply (lang_cat _ _ ["."%char] t); [by apply lang_char|].
    by apply lang_at_least_class.
Qed.

(** X10.  [emailRegex] accepts a string exactly when it reads
    [local @ domain . tld] with a non-empty [local] of letters, digits and
    [. _ % + -], a non-empty [domain] of letters, digits, [.] and [-], and a
    [tld] of at least two letters. *)
Theorem emailRegex_accepts (s : string) :
  match_whole emailRegex s = true
  <-> exists l d t : list ascii,
        String.list_ascii_of_string s = l ++ "@"%char :: d ++ "."%char :: t
        /\ l <> [] /\ Forall (fun c => in_class local_part c = true) l
        /\ d <> [] /\ Forall (fun c => in_class domain_part c = true) d
        /\ (2 <= length t)%nat /\ Forall (fun c => in_class letter c = true) t.
Proof. apply emailRegex_spec. Qed.

Lemma count_at_none ranges (l : list ascii) :
  in_class ranges "@"%char = false ->
  Forall (fun c => in_class ranges c = true) l ->
  List.filter (fun c => Ascii.eqb c "@"%char) l = [].
Proof.
  intros Hat. induction 1 as [|c l Hc _ IH]; [done|]. simpl.
  destruct (Ascii.eqb_spec c "@"%char) as [->|_]; [congruence | done].
Qed.

(** X11.  A string that [emailRegex] accepts holds exactly one [@], has at
    least six bytes, and ends with two letters. *)
Theorem emailRegex_shape (s : string) :
  match_whole emailRegex s = true ->
  length (List.filter (fun c => Ascii.eqb c "@"%char) (String.list_ascii_of_string s)) = 1%nat
  /\ (6 <= String.length s)%nat
  /\ exists (pre : list ascii) (x y : ascii),
       String.list_ascii_of_string s = pre ++ [x; y]
       /\ in_class letter x = true /\ in_class letter y = true.
Proof.
  intros (l & d & t & Hs & Hl & Hla & Hd & Hda & Ht & Hta)%emailRegex_spec.
  split; [|split].
  - rewrite Hs, List.filter_app. simpl. rewrite List.filter_app. simpl.
    rewrite (count_at_none local_part l), (count_at_none domain_part d),
      (count_at_none letter t); done.
  - rewrite <- length_list_ascii_of_string, Hs.
    rewrite length_app. simpl. rewrite length_app. simpl.
    destruct l; [done|]. destruct d; [done|]. simpl. lia.
  - exists (l ++ "@"%char :: d ++ "."%char :: take (length t - 2) t).
    assert (Hlast : exists x y, drop (length t - 2) t = [x; y]).
    { assert (Hlen : length (drop (length t - 2) t) = 2%nat)
        by (rewrite length_drop; lia).
      destruct (drop (length t - 2) t) as [|x [|y [|z r]]]; try done. eauto. }
    destruct Hlast as (x & y & Hxy). exists x, y.
    assert (Hin : Forall (fun c => in_class letter c = true) [x; y]).
    { rewrite <- Hxy. by apply Forall_drop. }
    split.
    + rewrite Hs, <- (take_drop (length t - 2) t) at 1. rewrite Hxy.
      rewrite <- !app_assoc. simpl. f_equal. f_equal. rewrite <- app_assoc. done.
    + apply Forall_cons in Hin as [Hx Hin]. apply Forall_cons in Hin as [Hy _]. done.
Qed.

Lemma emailRegex_shape_witness :
  length (List.filter (fun c => Ascii.eqb c "@"%char)
            (String.list_ascii_of_string "a.b+c@mail.example.org")) = 1%nat
  /\ (6 <= String.length "a.b+c@mail.example.org")%nat
  /\ exists (pre : list ascii) (x y : ascii),
       String.list_ascii_of_string "a.b+c@mail.example.org" = pre ++ [x; y]
       /\ in_class letter x = true /\ in_class letter y = true.
Proof.
  apply (emailRegex_shape "a.b+c@mail.example.org").
  vm_compute. reflexivity.
Defined.

End PatternFacts.

Module PasswordFacts.
Import Stdlib.Strings.Ascii Regexp Password RegexpFacts.

Lemma match_somewhere_class ranges s :
  match_somewhere (Class ranges) s = true
  <-> exists c, c ∈ String.list_ascii_of_string s /\ in_class ranges c = true.
Proof. unfold match_somewhere. by rewrite matches_lang, lang_somewhere_class. Qed.

Lemma ValidatePassword_spec (password : string) :
  (ValidatePassword password = None
   <-> (8 <= String.length password)%nat
       /\ (exists c, c ∈ String.list_ascii_of_string password
                     /\ in_class [("A", "Z")]%char c = true)
       /\ (exists c, c ∈ String.list_ascii_of_string password
                     /\ in_class [("a", "z")]%char c = true)
       /\ (exists c, c ∈ String.list_ascii_of_string password
                     /\ in_class [("0", "9")]%char c = true))
  /\ (ValidatePassword password <> None
      -> ValidatePassword password = Some ErrWeakPassword).
Proof.
  unfold ValidatePassword, MinPasswordLength, upper, lower, digit.
  rewrite <- !match_somewhere_class.
  destruct (Z.ltb_spec (Z.of_nat (String.length password)) 8) as [Hlt|Hge].
  - split; [|done]. split; [done|]. intros [? _]. lia.
  - destruct (match_somewhere (Class [("A", "Z")]%char) password),
      (match_somewhere (Class [("a", "z")]%char) password),
      (match_somewhere (Class [("0", "9")]%char) password); simpl;
      (split; [|done]); (split; [intros; try done; repeat split; try done; lia|]);
      intros (_ & ? & ? & ?); done.
Qed.

(** X12.  [ValidatePassword] returns nil exactly for the passwords of at
    least eight bytes that hold an upper-case letter, a lower-case letter and
    a digit; every other password gets [ErrWeakPassword]. *)
Theorem ValidatePassword_accepts (password : string) :
  (ValidatePassword password = None
   <-> (8 <= String.length password)%nat
       /\ (exists c, c ∈ String.list_ascii_of_string password
                     /\ in_class [("A", "Z")]%char c = true)
       /\ (exists c, c ∈ String.list_ascii_of_string password
                     /\ in_class [("a", "z")]%char c = true)
       /\ (exists c, c ∈ String.list_ascii_of_string password
                     /\ in_class [("0", "9")]%char c = true))
  /\ (ValidatePassword password <> None
      -> ValidatePassword password = Some ErrWeakPassword).
Proof. apply ValidatePassword_spec. Qed.

Lemma list_ascii_of_string_append s1 s2 :
  String.list_ascii_of_string (String.append s1 s2)
  = String.list_ascii_of_string s1 ++ String.list_ascii_of_string s2.
Proof.
  induction s1 as [|c s1 IH]; [reflexivity|].
  change (c :: String.list_ascii_of_string (String.append s1 s2)
          = c :: String.list_ascii_of_string s1 ++ String.list_ascii_of_string s2).
  by rewrite IH.
Qed.

(** X13.  A password that [ValidatePassword] accepts is still accepted with
    anything written before or after it. *)
Theorem ValidatePassword_extend (password before after : string) :
  ValidatePassword password = None ->
  ValidatePassword (String.append before (String.append password after)) = None.
Proof.
  intros (Hlen & Hu & Hl & Hd)%(proj1 (ValidatePassword_spec password)).
  apply (proj1 (ValidatePassword_spec _)).
  rewrite <- !length_list_ascii_of_string in *.
  rewrite !list_ascii_of_string_append, !length_app.
  split; [lia|].
  split; [|split].
  - destruct Hu as (c & Hc & ?). exists c. split; [|done].
    rewrite !elem_of_app. auto.
  - destruct Hl as (c & Hc & ?). exists c. split; [|done].
    rewrite !elem_of_app. auto.
  - destruct Hd as (c & Hc & ?). exists c. split; [|done].
    rewrite !elem_of_app. auto.
Qed.

Lemma ValidatePassword_extend_witness :
  ValidatePassword (String.append "my " (String.append "StrongPass123" "!")) = None.
Proof.
  apply (ValidatePassword_extend "StrongPass123" "my " "!").
  vm_compute. reflexivity.
Defined.

Lemma HashPassword_spec (bcrypt : string -> Z -> string + error)
    (password : string) :
  (forall hash, HashPassword bcrypt password = inl hash ->
     ValidatePassword password = None /\ bcrypt password 12 = inl hash)
  /\ (ValidatePassword password <> None ->
      HashPassword bcrypt password = inr ErrWeakPassword).
Proof.
  unfold HashPassword, BcryptCost. split.
  - intros hash. destruct (ValidatePassword password); [done|].
    destruct (bcrypt password 12); [|done]. by intros [= ->].
  - intros Hweak.
    by rewrite (proj2 (ValidatePassword_spec password) Hweak).
Qed.

(** X14.  [HashPassword] hands a password to bcrypt only when
    [ValidatePassword] accepts it, and then with cost 12: a hash comes back
    only for an accepted password and is the one bcrypt produced; a weak
    password gets [ErrWeakPassword] whatever bcrypt would do. *)
Theorem HashPassword_only_strong (bcrypt : string -> Z -> string + error)
    (password : string) :
  (forall hash, HashPassword bcrypt password = inl hash ->
     ValidatePassword password = None /\ bcrypt password 12 = inl hash)
  /\ (ValidatePassword password <> None ->
      HashPassword bcrypt password = inr ErrWeakPassword).
Proof. apply HashPassword_spec. Qed.

End PasswordFacts.

(** ** The handlers *)

Module HandlerFacts.
Import Stdlib.Strings.Ascii Regexp Patterns Password Handlers.
Import RegexpFacts PatternFacts PasswordFacts.

Lemma Get_found ps name v : In (name, v) ps -> (Get ps name).2 = true.
Proof.
  induction ps as [|entry ps IH]; [done|]. simpl.
  intros [->|Hin]; simpl.
  - by rewrite String.eqb_refl.
  - destruct (String.eqb entry.1 name); [done | by apply IH].
Qed.

Section WithCollaborators.

Variable DB : Type.
Variable BindRegister : string -> option RegisterRequest.
Variable BindLogin : string -> option LoginRequest.
Variable BindUpdate : string -> option UpdateUserRequest.
Variable TrimSpace : string -> string.
Variable ToLower : string -> string.
Variable FirstByEmailOrUsername : string -> string -> DB -> option User.
Variable FirstByEmail : string -> DB -> option User.
Variable FirstByParam : string -> DB -> option User.
Variable FirstByID : N -> DB -> option User.
Variable Create : User -> DB -> DB * option User.
Variable Updates : User -> gmap string string -> DB -> DB * option User.
Variable Delete : User -> DB -> DB * bool.
Variable GenerateFromPassword : string -> Z -> string + error.
Variable CompareHashAndPassword : string -> string -> option error.
Variable GenerateToken : N -> string -> string -> option string.
Variable GetUserID : Request -> option N.

(** X15.  [Register] leaves the database as it is unless everything checks
    out, and then changes it by one [Create] only: the request binds, the
    trimmed username has 3 to 50 letters, digits or underscores, the
    lower-cased and trimmed e-mail matches [emailRegex], no user with that
    e-mail or username was found, the password passes [ValidatePassword], and
    the user handed to [Create] carries the bcrypt hash of the password, not
    the password. *)
Theorem Register_creates_only_checked_users (c : Request) (db : DB) :
  (Register DB BindRegister TrimSpace ToLower FirstByEmailOrUsername Create
     GenerateFromPassword GenerateToken c db).1 = db
  \/ exists req hash,
       BindRegister (Body c) = Some req
       /\ (3 <= String.length (TrimSpace (regUsername req)) <= 50)%nat
       /\ Forall (fun ch => in_class word ch = true)
            (String.list_ascii_of_string (TrimSpace (regUsername req)))
       /\ match_whole emailRegex (TrimSpace (ToLower (regEmail req))) = true
       /\ FirstByEmailOrUsername (TrimSpace (ToLower (regEmail req)))
            (TrimSpace (regUsername req)) db = None
       /\ ValidatePassword (regPassword req) = None
       /\ GenerateFromPassword (regPassword req) 12 = inl hash
       /\ (Register DB BindRegister TrimSpace ToLower FirstByEmailOrUsername Create
             GenerateFromPassword GenerateToken c db).1
          = (Create {| ID := 0; Username := TrimSpace (regUsername req);
                       Email := TrimSpace (ToLower (regEmail req));
                       PasswordHash := hash;
                       CreatedAt := 0; UpdatedAt := 0; DeletedAt := None |} db).1.
Proof.
  unfold Register.
  destruct (BindRegister (Body c)) as [req|] eqn:Ebind; [|by left].
  destruct (match_whole usernameRegex (TrimSpace (regUsername req))) eqn:Euser;
    simpl; [|by left].
  destruct (match_whole emailRegex (TrimSpace (ToLower (regEmail req)))) eqn:Eemail;
    simpl; [|by left].
  destruct (FirstByEmailOrUsername _ _ db) eqn:Efound; [by left|].
  destruct (HashPassword GenerateFromPassword (regPassword req)) as [hash|err] eqn:Ehash;
    [|by left].
  destruct (HashPassword_spec GenerateFromPassword (regPassword req)) as [Hh _].
  destruct (Hh hash Ehash) as [Hvalid Hbcrypt].
  apply usernameRegex_spec in Euser as [Hlen Hword].
  right. exists req, hash. repeat split; try done; try lia.
  destruct (Create _ db) as [db' [user'|]]; simpl; [|done].
  by destruct (GenerateToken _ _ _).
Qed.

(** X16.  For a request that carries a path parameter [id], as every request
    on the route [PUT /users/:id] does, [UpdateUser] changes nothing: the
    test on [c.Params.Get("id")] takes the parameter's presence for an error,
    so the caller gets 401 when unauthenticated and 400 "Invalid user ID"
    otherwise, and the database is not consulted. *)
Theorem UpdateUser_with_id_param (c : Request) (db : DB) (v : string) :
  In ("id", v) (Params c) ->
  UpdateUser DB BindUpdate FirstByParam FirstByID Updates GetUserID c db
  = (db, match GetUserID c with
         | None => (401, ErrorH "Unauthorized")
         | Some _ => (400, ErrorH "Invalid user ID")
         end).
Proof.
  intros Hin%Get_found. unfold UpdateUser.
  destruct (GetUserID c); [|done]. by rewrite Hin.
Qed.

(** X17.  [DeleteUser] deletes nothing but the caller's own record: the
    database is left as it is unless the caller is authenticated, the record
    found under the path parameter exists and its [ID] is the caller's, and
    then it is changed by [Delete] on that record only. *)
Theorem DeleteUser_only_own (c : Request) (db : DB) :
  (DeleteUser DB FirstByParam Delete GetUserID c db).1 = db
  \/ exists uid user,
       GetUserID c = Some uid
       /\ FirstByParam (ByName (Params c) "id") db = Some user
       /\ ID user = uid
       /\ (DeleteUser DB FirstByParam Delete GetUserID c db).1 = (Delete user db).1.
Proof.
  unfold DeleteUser.
  destruct (GetUserID c) as [uid|] eqn:Euid; [|by left].
  destruct (FirstByParam _ db) as [user|] eqn:Euser; [|by left].
  destruct (N.eqb_spec (ID user) uid) as [Heq|Hne]; simpl; [|by left].
  right. exists uid, user. repeat split; try done.
  by destruct (Delete user db) as [db' []].
Qed.

(** X18.  [Login] never changes the database, and it answers an unknown
    e-mail and a wrong password alike: 401 with "Invalid email or
    password". *)
Theorem Login_reads_only_and_fails_alike (c : Request) (db : DB) :
  (Login DB BindLogin TrimSpace ToLower FirstByEmail CompareHashAndPassword
     GenerateToken c db).1 = db
  /\ (forall req,
        BindLogin (Body c) = Some req ->
        (FirstByEmail (TrimSpace (ToLower (logEmail req))) db = None
         \/ exists user,
              FirstByEmail (TrimSpace (ToLower (logEmail req))) db = Some user
              /\ CompareHashAndPassword (PasswordHash user) (logPassword req) <> None) ->
        (Login DB BindLogin TrimSpace ToLower FirstByEmail CompareHashAndPassword
           GenerateToken c db).2
        = (401, ErrorH "Invalid email or password")).
Proof.
  unfold Login, CheckPassword. split.
  - destruct (BindLogin (Body c)) as [req|]; [|done].
    destruct (FirstByEmail _ db) as [user|]; [|done].
    destruct (CompareHashAndPassword _ _); simpl; [done|].
    by destruct (GenerateToken _ _ _).
  - intros req -> [->|(user & -> & Hbad)]; [done|].
    by destruct (CompareHashAndPassword _ _).
Qed.

End WithCollaborators.

Lemma UpdateUser_with_id_param_witness :
  UpdateUser nat (fun _ => Some (mkUpdateUserRequest "new_name" ""))
    (fun _ _ => Some (mkUser 7 "old_name" "a@b.cd" "hash" 0 0 None))
    (fun _ _ => None)
    (fun u _ db => (S db, Some u))
    (fun _ => Some 7%N)
    (mkRequest [("id", "7")] "{}") 0%nat
  = (0%nat, (400, ErrorH "Invalid user ID")).
Proof.
  apply (UpdateUser_with_id_param nat (fun _ => Some (mkUpdateUserRequest "new_name" ""))
           (fun _ _ => Some (mkUser 7 "old_name" "a@b.cd" "hash" 0 0 None))
           (fun _ _ => None)
           (fun u _ db => (S db, Some u))
           (fun _ => Some 7%N)
           (mkRequest [("id", "7")] "{}") 0%nat "7").
  simpl. by left.
Defined.

End HandlerFacts.

(** ** The limiter in front of a handler *)

Section Serve.

Context {Store : Type}.
Variable body : Server Store -> Server Store.
Hypothesis body_limiter : forall x, limiter (body x) = limiter x.
Hypothesis body_index : forall x, Gin.index (ctx (body x)) = Gin.index (ctx x).

(** One request through the chain [RateLimitMiddleware; business body]. *)
Lemma serve_one ip now rl (st : Store) :
  limiter (Next [RateLimitMiddleware now; business body] (request ip rl st))
  = (Allow ip now rl).2
  /\ ((Allow ip now rl).1 = false ->
      Gin.written (ctx (Next [RateLimitMiddleware now; business body] (request ip rl st)))
      = refusal
      /\ store (Next [RateLimitMiddleware now; business body] (request ip rl st)) = st).
Proof.
  unfold Next. rewrite run_handlers_at by done.
  unfold RateLimitMiddleware. simpl Gin.ClientIP. simpl limiter.
  destruct (Allow ip now rl) as [ok rl'] eqn:E. simpl fst. simpl snd.
  destruct ok; simpl negb; cbv iota.
  - split; [|done].
    simpl. unfold business. rewrite !body_index. simpl.
    by rewrite body_limiter.
  - pose proof (Allow_denied_same ip now rl) as Hsame. rewrite E in Hsame.
    simpl in Hsame. rewrite Hsame by done.
    rewrite run_handlers_passed by (simpl; unfold Gin.abortIndex; lia).
    simpl. by repeat split.
Qed.

Lemma passed_le_admitted ip s W reqs : forall rl (st : Store),
  (length (List.filter (passed ip s W)
             (zip reqs (serve_all (business body) reqs rl st).1))
   <= length (List.filter (in_span s W) (admitted_at ip (request_events reqs) rl)))%nat.
Proof.
  induction reqs as [|[ip' now] reqs IH]; intros rl st; [done|].
  simpl. destruct (serve_one ip' now rl st) as [Hlim Hrefused].
  rewrite Hlim. specialize (IH (Allow ip' now rl).2).
  rewrite List.filter_app, length_app.
  unfold passed at 1. simpl.
  destruct (bool_decide_reflect (ip' = ip)) as [->|Hne]; simpl.
  - destruct (decide (ip = ip)); [|done].
    destruct (Allow ip now rl).1 eqn:E.
    + simpl. destruct (in_span s W now); simpl.
      * destruct (negb _); simpl; [|etrans; [apply IH|]; lia].
        apply le_n_S, IH.
      * apply IH.
    + destruct (Hrefused eq_refl) as [-> _].
      rewrite bool_decide_eq_true_2 by done.
      rewrite andb_false_r. simpl. apply IH.
  - destruct (decide (ip' = ip)); [done|]. simpl. apply IH.
Qed.

End Serve.

(** X19.  Behind [RateLimitMiddleware], with a fresh limiter (limit at least
    1, positive window) and requests that arrive in the order of the clock,
    no client gets more than [limit] requests past the limiter in any span of
    time shorter than the window: all its other requests in the span are
    answered with the 429 refusal.  The business handler may be any that
    leaves the limiter and the position in the chain alone. *)
Theorem requests_past_limiter_bounded {Store : Type}
    (body : Server Store -> Server Store) (L W t0 : Z)
    (reqs : list (string * Z)) (st : Store) (ip : string) (s : Z) :
  (forall x, limiter (body x) = limiter x) ->
  (forall x, Gin.index (ctx (body x)) = Gin.index (ctx x)) ->
  1 <= L ->
  0 < W <= Time.maxDuration ->
  monotone_from t0 (request_events reqs) ->
  Z.of_nat (length (List.filter (passed ip s W)
    (zip reqs (serve_all (business body) reqs (NewRateLimiter L W) st).1))) <= L.
Proof.
  intros Hlim Hidx HL HW Hmono.
  pose proof (passed_le_admitted body Hlim Hidx ip s W reqs (NewRateLimiter L W) st) as Hle.
  destruct (admitted_at_sparse ip (request_events reqs) t0 (NewRateLimiter L W) []
              HL HW Hmono (tracks_New ip t0 L W)) as [_ Hsp].
  { intros s'. simpl. lia. }
  specialize (Hsp s). simpl in Hsp. lia.
Qed.

Lemma requests_past_limiter_bounded_witness :
  Z.of_nat (length (List.filter (passed "1.2.3.4" 0 Time.Minute)
    (zip [("1.2.3.4", 0); ("1.2.3.4", 1); ("5.6.7.8", 2); ("1.2.3.4", 3); ("1.2.3.4", 4)]
       (serve_all (business (fun s => mkServer (limiter s) (ctx s) (S (store s))))
          [("1.2.3.4", 0); ("1.2.3.4", 1); ("5.6.7.8", 2); ("1.2.3.4", 3); ("1.2.3.4", 4)]
          (NewRateLimiter 3 Time.Minute) 0%nat).1))) <= 3.
Proof.
  apply (requests_past_limiter_bounded
           (fun s => mkServer (limiter s) (ctx s) (S (store s))) 3 Time.Minute 0
           [("1.2.3.4", 0); ("1.2.3.4", 1); ("5.6.7.8", 2); ("1.2.3.4", 3); ("1.2.3.4", 4)]
           0%nat "1.2.3.4" 0).
  - reflexivity.
  - reflexivity.
  - lia.
  - unfold Time.Minute, Time.Second, Time.Nanosecond, Time.maxDuration. lia.
  - simpl. lia.
Defined.

Lemma cleanup_unobservable_witness :
  outcomes [EvAllow "k" 130; EvAllow "j" 140; EvAllow "k" 150]
    (cleanup 120 (run [EvAllow "k" 0; EvAllow "k" 90] (NewRateLimiter 2 100)))
  = outcomes [EvAllow "k" 130; EvAllow "j" 140; EvAllow "k" 150]
      (run [EvAllow "k" 0; EvAllow "k" 90] (NewRateLimiter 2 100)).
Proof.
  apply (cleanup_unobservable 120 [EvAllow "k" 130; EvAllow "j" 140; EvAllow "k" 150]
           (run [EvAllow "k" 0; EvAllow "k" 90] (NewRateLimiter 2 100))).
  - rewrite run_limit. simpl. lia.
  - rewrite run_window. unfold Time.minDuration, Time.maxDuration. simpl. lia.
  - simpl. lia.
Defined.

Lemma any_prefix_completes_witness :
  exists more,
    Concurrent.all_done
      (Concurrent.execs ([Concurrent.Run 1; Concurrent.Run 0; Concurrent.Run 1] ++ more)
         (Concurrent.init (NewRateLimiter 1 100) 0 "k" 2)) = true
    /\ Concurrent.clock
         (Concurrent.execs ([Concurrent.Run 1; Concurrent.Run 0; Concurrent.Run 1] ++ more)
            (Concurrent.init (NewRateLimiter 1 100) 0 "k" 2))
       = Concurrent.clock
           (Concurrent.execs [Concurrent.Run 1; Concurrent.Run 0; Concurrent.Run 1]
              (Concurrent.init (NewRateLimiter 1 100) 0 "k" 2)).
Proof.
  apply (ConcurrentFacts.any_prefix_completes 1 100 0 "k" 2
           [Concurrent.Run 1; Concurrent.Run 0; Concurrent.Run 1]).
  - lia.
  - unfold Time.maxDuration. lia.
  - vm_compute. reflexivity.
Defined.

